(** * DiscoverCars crawler: a shallow embedding of [crawler.py]

    The crawler enumerates query prefixes breadth-first with a pool of
    worker threads, filters the records it receives through a shared set of
    record keys, hands the new records to a writer thread over a bounded
    queue, and periodically pickles its state.

    The embedding follows the source function by function.  Sequential code
    ([api_call], [load_previous], the body of [writer_thread], the
    deduplication loop of [worker]) becomes Rocq functions.  The threads of
    [crawl] become an interleaving semantics: every thread has a program
    counter, an action names the thread that moves and carries whatever the
    environment decides (what the network answers, in which order a Python
    set is listed), and [step] is the executable transition function.  A
    statement made under a lock is one transition. *)

From Stdlib Require Import ZArith Lia.
From stdpp Require Import base option list strings gmap sets pretty.

Local Open Scope string_scope.
Local Open Scope Z_scope.
Local Open Scope list_scope.

(** ** Constants *)

Definition ROOT : string := "https://www.discovercars.com".
Definition MAX_DEPTH : nat := 4.
Definition N_THREADS : nat := 8.

(** [string.ascii_lowercase] *)
Definition ascii_lowercase : string := "abcdefghijklmnopqrstuvwxyz".

(** ** Records

    The source receives records from [r.json()] and treats them as
    dictionaries with string keys.  Values are JSON scalars; [py_str] is
    what an f-string prints for them.  (Floats and nested containers do not
    occur in the key fields and are left out of the value type.) *)

Inductive JVal : Type :=
| JNull
| JBool (b : bool)
| JInt (n : Z)
| JStr (s : string).

Global Instance JVal_eq_dec : EqDecision JVal.
Proof. solve_decision. Defined.

Definition py_str (v : JVal) : string :=
  match v with
  | JNull => "None"
  | JBool true => "True"
  | JBool false => "False"
  | JInt n => pretty n
  | JStr s => s
  end.

Abbreviation Row := (gmap string JVal).

(** [f"{obj['location']}:{obj['placeID']}"]; [None] stands for the
    [KeyError] of a missing field. *)
Definition uid (obj : Row) : option string :=
  loc ← obj !! "location";
  pid ← obj !! "placeID";
  Some (py_str loc +:+ ":" +:+ py_str pid).

(** ** [api_call]

    One network attempt, as [api_call] distinguishes them. *)

Inductive Attempt : Type :=
| Responds (status : Z) (body : option (list Row))
    (* a response arrived; [body] is what [r.json()] gives, [None] when it raises *)
| ReadTimeout
| ConnectionError
| OtherError.  (* any exception [api_call] does not catch *)

Inductive ApiResult : Type :=
| Returned (data : list Row)
| Raised.

(** What one call does besides returning. *)
Inductive Effect : Type :=
| EGet (url : string)
| EStat (status : Z)
| ESleep (seconds : Z)
| ELogTimeout (prefix : string).

Global Instance Effect_eq_dec : EqDecision Effect.
Proof. solve_decision. Defined.

Definition autocomplete_url (prefix : string) : string :=
  ROOT +:+ "/en/search/autocomplete/" +:+ prefix.

(** [r.raise_for_status()] raises for 4xx and 5xx. *)
Definition raise_for_status (status : Z) : bool :=
  (400 <=? status) && (status <? 600).

(** [net k] is the outcome of the [k]-th attempt of this call.  [retries] is
    a Python [int]; the test [if retries:] only asks whether it is non-zero,
    so the recursion is not structural and the model takes fuel: [None]
    means the fuel ran out before the call returned. *)
Fixpoint api_call (fuel : nat) (net : nat → Attempt) (k : nat)
    (prefix : string) (retries : Z) : option (ApiResult * list Effect) :=
  match fuel with
  | O => None
  | S fuel' =>
    let url := autocomplete_url prefix in
    match net k with
    | Responds status body =>
      if decide (status = 404) then Some (Returned [], [EGet url; EStat status])
      else if raise_for_status status then Some (Raised, [EGet url; EStat status])
      else match body with
           | Some data => Some (Returned data, [EGet url; EStat status])
           | None => Some (Raised, [EGet url; EStat status])
           end
    | ReadTimeout | ConnectionError =>
      if decide (retries = 0)
      then Some (Returned [], [EGet url; ELogTimeout prefix])
      else
        match api_call fuel' net (S k) prefix (retries - 1) with
        | Some (res, eff) => Some (res, EGet url :: ESleep 2 :: eff)
        | None => None
        end
    | OtherError => Some (Raised, [EGet url])
    end
  end.

(** The number of network attempts in an effect log. *)
Definition is_get (e : Effect) : bool :=
  match e with EGet _ => true | _ => false end.

Definition attempts (eff : list Effect) : nat :=
  length (filter (λ e, is_get e) eff).

(** The worker calls [api_call(sess, prefix, token)], so [retries] is 3. *)
Definition DEFAULT_RETRIES : Z := 3.

(** ** The deduplication loop of [worker] (the body of [with seen_lock])

    Returns the set as the loop leaves it and the rows collected; the rows
    are [None] when a record lacks a key field, in which case the
    [KeyError] leaves the keys added so far in the set. *)
Fixpoint dedup_loop (data : list Row) (seen_ids : gset string)
    (new_rows : list Row) : gset string * option (list Row) :=
  match data with
  | [] => (seen_ids, Some new_rows)
  | obj :: rest =>
    match uid obj with
    | None => (seen_ids, None)
    | Some k =>
      if decide (k ∈ seen_ids) then dedup_loop rest seen_ids new_rows
      else dedup_loop rest ({[k]} ∪ seen_ids) (new_rows ++ [obj])
    end
  end.

Definition mk_row (loc : string) (pid : Z) : Row :=
  {[ "location" := JStr loc; "placeID" := JInt pid ]}.


(** The retry budget the crawler runs with is within the fuel the step
    function gives [api_call]. *)
Definition API_FUEL : nat := 4.

(** ** [queue.Queue]

    The fields of the Python object that the crawler depends on: the items,
    the count of unfinished tasks that [put] raises and [task_done] lowers,
    and [maxsize] (zero or less: unbounded).  An operation that would block
    returns [None]. *)

Record Queue (A : Type) : Type := mkQueue {
  q_items : list A;
  q_unfinished : Z;
  q_maxsize : Z;
}.
Arguments mkQueue {A} _ _ _.
Arguments q_items {A} _.
Arguments q_unfinished {A} _.
Arguments q_maxsize {A} _.

Definition q_new {A} (maxsize : Z) : Queue A := mkQueue [] 0 maxsize.

Definition q_size {A} (q : Queue A) : Z := Z.of_nat (length (q_items q)).

Definition q_full {A} (q : Queue A) : bool :=
  (0 <? q_maxsize q) && (q_maxsize q <=? q_size q).

Definition q_put {A} (x : A) (q : Queue A) : option (Queue A) :=
  if q_full q then None
  else Some (mkQueue (q_items q ++ [x]) (q_unfinished q + 1) (q_maxsize q)).

Definition q_get {A} (q : Queue A) : option (A * Queue A) :=
  match q_items q with
  | [] => None
  | x :: rest => Some (x, mkQueue rest (q_unfinished q) (q_maxsize q))
  end.

(** [task_done] raises [ValueError] when called more often than [put]. *)
Definition q_task_done {A} (q : Queue A) : option (Queue A) :=
  if q_unfinished q - 1 <? 0 then None
  else Some (mkQueue (q_items q) (q_unfinished q - 1) (q_maxsize q)).

(** ** The files: checkpoint, CSV, JSON lines *)

Record Checkpoint : Type := mkCheckpoint {
  ck_seen_ids : gset string;
  ck_queue : list string;
  ck_processed : Z;
}.

(** What [pickle.load] finds in [queue_state.pkl]. *)
Inductive Pickle : Type :=
| PickleState (c : Checkpoint)
| PickleGarbage.

Record Disk : Type := mkDisk {
  state_file : option Pickle;            (* [None]: the file does not exist *)
  csv_file : option (list (list JVal));  (* rows of cells, header included *)
  json_file : list Row;                  (* one record per line *)
}.

(** Iterating a Python string gives its one-character strings. *)
Fixpoint py_list (s : string) : list string :=
  match s with
  | EmptyString => []
  | String c rest => String c EmptyString :: py_list rest
  end.

(** [load_previous]; [None] is the exception of an unreadable file. *)
Definition load_previous (d : Disk) : option (gset string * list string * Z) :=
  match state_file d with
  | None => Some (∅, py_list ascii_lowercase, 0)
  | Some (PickleState c) => Some (ck_seen_ids c, ck_queue c, ck_processed c)
  | Some PickleGarbage => None
  end.

Definition save_state (seen : gset string) (queue : list string)
    (processed : Z) (d : Disk) : Disk :=
  mkDisk (Some (PickleState (mkCheckpoint seen queue processed)))
         (csv_file d) (json_file d).

(** ** The writer's helpers *)

Definition first : list string :=
  ["country"; "countryID"; "city"; "cityID"; "location"; "place";
   "placeID"; "lat"; "lng"].

(** [{k for r in rows for k in r}] *)
Definition batch_keys (rows : list Row) : gset string := ⋃ (dom <$> rows).

(** [list(s)] of a Python set [s] lists every element once, in an order the
    language does not fix. *)
Definition listing_of (order : list string) (s : gset string) : Prop :=
  NoDup order ∧ list_to_set order = s.

Global Instance listing_of_dec order s : Decision (listing_of order s).
Proof. unfold listing_of. apply _. Defined.

(** [first + [k for k in fieldnames if k not in first]] *)
Definition schema_of (order : list string) : list string :=
  first ++ filter (λ k, k ∉ first) order.

(** A [DictWriter] row with [extrasaction="ignore"] and the default
    [restval]: one cell per field name, the empty string where the record
    has no such field. *)
Definition csv_row (fieldnames : list string) (r : Row) : list JVal :=
  (λ k, default (JStr "") (r !! k)) <$> fieldnames.

Definition header_row (fieldnames : list string) : list JVal :=
  JStr <$> fieldnames.

Definition ensure_csv_header (fieldnames : list string) (d : Disk) : Disk :=
  match csv_file d with
  | Some _ => d
  | None => mkDisk (state_file d) (Some [header_row fieldnames]) (json_file d)
  end.

(** Opening in append mode creates a missing file. *)
Definition append_rows (rows : list Row) (fieldnames : list string)
    (d : Disk) : Disk :=
  mkDisk (state_file d)
         (Some (default [] (csv_file d) ++ (csv_row fieldnames <$> rows)))
         (json_file d ++ rows).

(** One iteration of [writer_thread] on a batch that is not the stop
    signal.  [order] is the order in which [list({...})] lists the keys; it
    is consulted only when the schema is fixed.  With no schema and an empty
    batch [writerows] has nothing to write, whatever the field names. *)
Definition writer_iter (order : list string) (rows : list Row)
    (fieldnames_ref : option (list string)) (d : Disk)
    : option (list string) * Disk :=
  match fieldnames_ref, rows with
  | None, _ :: _ =>
    let fieldnames := schema_of order in
    (Some fieldnames, append_rows rows fieldnames (ensure_csv_header fieldnames d))
  | Some fieldnames, _ => (fieldnames_ref, append_rows rows fieldnames d)
  | None, [] => (None, append_rows rows [] d)
  end.

(** ** Threads *)

(** Where a worker stands in [worker]. *)
Inductive Worker : Type :=
| WStart                                   (* before [make_session], [get_csrf] *)
| WIdle                                    (* in [prefix_q.get(timeout=3)] *)
| WFetched (prefix : string)               (* before [api_call] *)
| WCounting (prefix : string) (data : list Row)   (* before [with processed_lock] *)
| WDedup (prefix : string) (data : list Row)      (* before [with seen_lock] *)
| WEmit (prefix : string) (data new_rows : list Row)  (* before [if new_rows] *)
| WPutting (prefix : string) (chs : list string)  (* in the [for ch] loop *)
| WExited                                  (* returned on [queue.Empty] *)
| WCrashed.                                (* ended by an exception *)

Inductive WriterPc : Type := WrRunning | WrExited | WrCrashed.

(** Where the main thread stands in [crawl], after the threads started. *)
Inductive MainPc : Type :=
| MLoop      (* in [while any(w.is_alive() ...)] *)
| MStop      (* before [rows_q.put(None)] *)
| MJoin      (* in [writer.join()] *)
| MSave      (* before the last [save_state] *)
| MDone (uniq : nat) (proc : Z).    (* returned [len(seen_ids), processed] *)

Definition is_alive (w : Worker) : bool :=
  match w with
  | WExited | WCrashed => false
  | _ => true
  end.

Record State : Type := mkState {
  seen_ids : gset string;
  prefix_q : Queue string;
  rows_q : Queue (option (list Row));   (* [None] is the stop signal *)
  processed_counter : Z;
  fieldnames_ref : option (list string);
  workers : list Worker;
  writer : WriterPc;
  main : MainPc;
  disk : Disk;
}.

Definition set_seen_ids (s : gset string) (st : State) : State :=
  mkState s (prefix_q st) (rows_q st) (processed_counter st)
          (fieldnames_ref st) (workers st) (writer st) (main st) (disk st).
Definition set_prefix_q (q : Queue string) (st : State) : State :=
  mkState (seen_ids st) q (rows_q st) (processed_counter st)
          (fieldnames_ref st) (workers st) (writer st) (main st) (disk st).
Definition set_rows_q (q : Queue (option (list Row))) (st : State) : State :=
  mkState (seen_ids st) (prefix_q st) q (processed_counter st)
          (fieldnames_ref st) (workers st) (writer st) (main st) (disk st).
Definition set_processed (n : Z) (st : State) : State :=
  mkState (seen_ids st) (prefix_q st) (rows_q st) n
          (fieldnames_ref st) (workers st) (writer st) (main st) (disk st).
Definition set_fieldnames (f : option (list string)) (st : State) : State :=
  mkState (seen_ids st) (prefix_q st) (rows_q st) (processed_counter st)
          f (workers st) (writer st) (main st) (disk st).
Definition set_worker (i : nat) (w : Worker) (st : State) : State :=
  mkState (seen_ids st) (prefix_q st) (rows_q st) (processed_counter st)
          (fieldnames_ref st) (<[i:=w]> (workers st)) (writer st) (main st)
          (disk st).
Definition set_writer (w : WriterPc) (st : State) : State :=
  mkState (seen_ids st) (prefix_q st) (rows_q st) (processed_counter st)
          (fieldnames_ref st) (workers st) w (main st) (disk st).
Definition set_main (m : MainPc) (st : State) : State :=
  mkState (seen_ids st) (prefix_q st) (rows_q st) (processed_counter st)
          (fieldnames_ref st) (workers st) (writer st) m (disk st).
Definition set_disk (d : Disk) (st : State) : State :=
  mkState (seen_ids st) (prefix_q st) (rows_q st) (processed_counter st)
          (fieldnames_ref st) (workers st) (writer st) (main st) d.

(** ** [crawl] up to the start of the threads

    [rows_q] is created with [maxsize=1000]. *)
Definition ROWS_Q_MAXSIZE : Z := 1000.

Definition crawl_init (d : Disk) : option State :=
  match load_previous d with
  | None => None
  | Some (seen, queue_list, processed) =>
    Some (mkState seen
                  (mkQueue queue_list (Z.of_nat (length queue_list)) 0)
                  (q_new ROWS_Q_MAXSIZE)
                  processed
                  None
                  (replicate N_THREADS WStart)
                  WrRunning
                  MLoop
                  d)
  end.

(** ** Transitions *)

(** What the environment decides is part of the action: whether a worker's
    session set-up succeeds, what the network answers to each attempt of a
    query, and the order in which the writer's key set is listed. *)
Inductive WAction : Type :=
| WaStart (ok : bool)
| WaGet
| WaTimeout
| WaQuery (net : nat → Attempt)
| WaCount
| WaDedup
| WaEmit
| WaPut
| WaDone.

Inductive MAction : Type :=
| MaBackup
| MaLoopExit
| MaSentinel
| MaJoin
| MaSave.

Inductive Action : Type :=
| AWorker (i : nat) (wa : WAction)
| AWriter (order : list string)
| AMain (ma : MAction).

(** What a transition lets an observer see. *)
Inductive Event : Type :=
| EvApi (i : nat) (eff : list Effect)    (* the effects of one [api_call] *)
| EvEmit (i : nat) (rows : list Row)      (* [rows_q.put(new_rows)] *)
| EvPut (i : nat) (prefix : string)       (* [prefix_q.put(prefix + ch)] *)
| EvExit (i : nat).                       (* [return] from [worker] *)

(** The letters the [for ch] loop runs over: all of them when
    [len(data) == 10 and len(prefix) < MAX_DEPTH], none otherwise. *)
Definition expansion (data : list Row) (prefix : string) : list string :=
  if decide (length data = 10%nat ∧ (String.length prefix < MAX_DEPTH)%nat)
  then py_list ascii_lowercase
  else [].

(** One transition of worker [i] standing at [w].  [None]: the action is
    not possible there (this includes a blocked [put] or [get]). *)
Definition worker_step (i : nat) (wa : WAction) (w : Worker) (st : State)
    : option (Worker * State * list Event) :=
  match w, wa with
  | WStart, WaStart ok => Some (if ok then WIdle else WCrashed, st, [])
  | WIdle, WaGet =>
    match q_get (prefix_q st) with
    | Some (prefix, q) => Some (WFetched prefix, set_prefix_q q st, [])
    | None => None
    end
  | WIdle, WaTimeout =>
    match q_items (prefix_q st) with
    | [] => Some (WExited, st, [EvExit i])
    | _ :: _ => None
    end
  | WFetched prefix, WaQuery net =>
    match api_call API_FUEL net 0 prefix DEFAULT_RETRIES with
    | Some (Returned data, eff) => Some (WCounting prefix data, st, [EvApi i eff])
    | Some (Raised, eff) => Some (WCrashed, st, [EvApi i eff])
    | None => None
    end
  | WCounting prefix data, WaCount =>
    Some (WDedup prefix data, set_processed (processed_counter st + 1) st, [])
  | WDedup prefix data, WaDedup =>
    match dedup_loop data (seen_ids st) [] with
    | (seen, Some new_rows) =>
      Some (WEmit prefix data new_rows, set_seen_ids seen st, [])
    | (seen, None) => Some (WCrashed, set_seen_ids seen st, [])
    end
  | WEmit prefix data new_rows, WaEmit =>
    match new_rows with
    | [] => Some (WPutting prefix (expansion data prefix), st, [])
    | _ :: _ =>
      match q_put (Some new_rows) (rows_q st) with
      | Some q => Some (WPutting prefix (expansion data prefix),
                        set_rows_q q st, [EvEmit i new_rows])
      | None => None
      end
    end
  | WPutting prefix (ch :: chs), WaPut =>
    match q_put (prefix +:+ ch) (prefix_q st) with
    | Some q => Some (WPutting prefix chs, set_prefix_q q st,
                      [EvPut i (prefix +:+ ch)])
    | None => None
    end
  | WPutting prefix [], WaDone =>
    match q_task_done (prefix_q st) with
    | Some q => Some (WIdle, set_prefix_q q st, [])
    | None => Some (WCrashed, st, [])
    end
  | _, _ => None
  end.

(** The writer consults [order] only when this batch fixes the schema. *)
Definition order_ok (order : list string) (rows : list Row)
    (fieldnames_ref : option (list string)) : bool :=
  match fieldnames_ref, rows with
  | None, _ :: _ => bool_decide (listing_of order (batch_keys rows))
  | _, _ => true
  end.

Definition writer_step (order : list string) (st : State)
    : option (State * list Event) :=
  match writer st with
  | WrRunning =>
    match q_get (rows_q st) with
    | None => None
    | Some (None, q) => Some (set_writer WrExited (set_rows_q q st), [])
    | Some (Some rows, q) =>
      if order_ok order rows (fieldnames_ref st) then
        let '(f, d) := writer_iter order rows (fieldnames_ref st) (disk st) in
        let st' := set_disk d (set_fieldnames f st) in
        match q_task_done q with
        | Some q' => Some (set_rows_q q' st', [])
        | None => Some (set_writer WrCrashed (set_rows_q q st'), [])
        end
      else None
    end
  | _ => None
  end.

Definition main_step (ma : MAction) (st : State)
    : option (State * list Event) :=
  match main st, ma with
  | MLoop, MaBackup =>
    Some (set_disk (save_state (seen_ids st) (q_items (prefix_q st))
                               (processed_counter st) (disk st)) st, [])
  | MLoop, MaLoopExit =>
    if forallb (λ w, negb (is_alive w)) (workers st)
    then Some (set_main MStop st, [])
    else None
  | MStop, MaSentinel =>
    match q_put None (rows_q st) with
    | Some q => Some (set_main MJoin (set_rows_q q st), [])
    | None => None
    end
  | MJoin, MaJoin =>
    match writer st with
    | WrRunning => None
    | _ => Some (set_main MSave st, [])
    end
  | MSave, MaSave =>
    Some (set_main (MDone (size (seen_ids st)) (processed_counter st))
            (set_disk (save_state (seen_ids st) [] (processed_counter st)
                                  (disk st)) st), [])
  | _, _ => None
  end.

Definition step (st : State) (a : Action) : option (State * list Event) :=
  match a with
  | AWorker i wa =>
    match workers st !! i with
    | Some w =>
      match worker_step i wa w st with
      | Some (w', st', evs) => Some (set_worker i w' st', evs)
      | None => None
      end
    | None => None
    end
  | AWriter order => writer_step order st
  | AMain ma => main_step ma st
  end.

(** A run of several transitions and what it lets see. *)
Fixpoint exec (st : State) (acts : list Action)
    : option (State * list Event) :=
  match acts with
  | [] => Some (st, [])
  | a :: rest =>
    match step st a with
    | Some (st1, e1) =>
      match exec st1 rest with
      | Some (st2, e2) => Some (st2, e1 ++ e2)
      | None => None
      end
    | None => None
    end
  end.

(** The states of one run started on the files [d]. *)
Inductive in_run (d : Disk) : State → Prop :=
| in_run_init st : crawl_init d = Some st → in_run d st
| in_run_step st a st' evs :
    in_run d st → step st a = Some (st', evs) → in_run d st'.


(** Projections of an event log. *)
Definition emitted (evs : list Event) : list Row :=
  concat (omap (λ e, match e with EvEmit _ rows => Some rows | _ => None end) evs).

Definition puts_of (i : nat) (evs : list Event) : list string :=
  omap (λ e, match e with
             | EvPut j p => if decide (j = i) then Some p else None
             | _ => None
             end) evs.

Definition all_puts (evs : list Event) : list string :=
  omap (λ e, match e with EvPut _ p => Some p | _ => None end) evs.

(** ** Vocabulary for the statements about [api_call] *)

Definition transient (a : Attempt) : Prop :=
  a = ReadTimeout ∨ a = ConnectionError.

Global Instance Attempt_transient_dec a : Decision (transient a).
Proof. unfold transient. destruct a; (left; auto; fail) || (right; intros [?|?]; discriminate). Defined.

(** The effects of [j] failed attempts that were retried. *)
Definition retried (prefix : string) (j : nat) : list Effect :=
  concat (replicate j [EGet (autocomplete_url prefix); ESleep 2]).

(** ** Vocabulary for the statements about the threads *)

(** The prefix a worker has taken from the frontier and not finished. *)
Definition in_flight (w : Worker) : option string :=
  match w with
  | WFetched p | WCounting p _ | WDedup p _ | WEmit p _ _ | WPutting p _ => Some p
  | _ => None
  end.

(** The batch a worker has collected and not yet put on [rows_q]. *)
Definition held_rows (w : Worker) : list Row :=
  match w with
  | WEmit _ _ new_rows => new_rows
  | _ => []
  end.

Definition held (ws : list Worker) : list Row := concat (held_rows <$> ws).

(** The records waiting in [rows_q]. *)
Definition queued (q : Queue (option (list Row))) : list Row :=
  concat (omap id (q_items q)).

Definition keys (rows : list Row) : list string := omap uid rows.


(** ** Concrete runs used in examples *)

Definition fresh_disk : Disk := mkDisk None None [].

(** A network that answers every query with the given records. *)
Definition answers (data : list Row) : nat → Attempt :=
  λ _, Responds 200 (Some data).

(** A network that never answers. *)
Definition silent : nat → Attempt := λ _, ReadTimeout.

Definition ten_rows : list Row :=
  (λ n, mk_row "Riga" (Z.of_nat n)) <$> seq 0 10.

(** The actions of worker [i] from taking a prefix to having emitted. *)
Definition fetch_and_emit (i : nat) (net : nat → Attempt) : list Action :=
  [AWorker i WaGet; AWorker i (WaQuery net); AWorker i WaCount;
   AWorker i WaDedup; AWorker i WaEmit].

(** A whole iteration of worker [i] on a prefix without results. *)
Definition quiet_iteration (i : nat) : list Action :=
  fetch_and_emit i (answers []) ++ [AWorker i WaDone].

(** Workers 0 and 1 start; worker 1 handles "a" to "y", none of which has
    results; worker 0 takes "z". *)
Definition lone_z : list Action :=
  [AWorker 0 (WaStart true); AWorker 1 (WaStart true)]
  ++ concat (replicate 25 (quiet_iteration 1))
  ++ [AWorker 0 WaGet].

(** A run from the start of [crawl] on the files [d]. *)
Definition run (d : Disk) (acts : list Action) : option (State * list Event) :=
  match crawl_init d with
  | Some st0 => exec st0 acts
  | None => None
  end.




(** ** Vocabulary for the statements about keys and sinks *)

Definition has_uid (r : Row) : Prop := is_Some (uid r).


(** The CSV file before the first data row of this run: what was there, or
    the header this run wrote. *)
Definition csv_base (c0 : option (list (list JVal)))
    (fieldnames : list string) : list (list JVal) :=
  match c0 with
  | Some rows => rows
  | None => [header_row fieldnames]
  end.

(** The files [d] are the files [d0] plus the records [W] of this run. *)
Definition sinks_rel (d0 : Disk) (fieldnames_ref : option (list string))
    (W : list Row) (d : Disk) : Prop :=
  json_file d = json_file d0 ++ W
  ∧ match fieldnames_ref with
    | None => W = [] ∧ csv_file d = csv_file d0
    | Some fn =>
      (∃ order, fn = schema_of order)
      ∧ csv_file d = Some (csv_base (csv_file d0) fn ++ (csv_row fn <$> W))
    end.

(** The invariant behind uniqueness: [E] are the records emitted so far in
    a run that started on the files [d0] with the key set [seen0]. *)
Definition uniq_inv (d0 : Disk) (seen0 : gset string) (E : list Row)
    (st : State) : Prop :=
  ∃ W,
    E = W ++ queued (rows_q st)
    ∧ sinks_rel d0 (fieldnames_ref st) W (disk st)
    ∧ Forall has_uid (E ++ held (workers st))
    ∧ NoDup (keys (E ++ held (workers st)))
    ∧ (∀ k, k ∈ keys (E ++ held (workers st)) → k ∈ seen_ids st ∧ k ∉ seen0)
    ∧ seen0 ⊆ seen_ids st
    ∧ Forall (λ b, b ≠ Some []) (q_items (rows_q st)).

(** The number of prefixes taken from the frontier and not finished. *)
Definition holds_prefix (w : Worker) : nat :=
  match in_flight w with Some _ => 1 | None => 0 end.

Definition outstanding (st : State) : Z :=
  Z.of_nat (length (q_items (prefix_q st)))
  + Z.of_nat (sum_list_with holds_prefix (workers st)).

Definition two_rows : list Row := [mk_row "Riga" 1; mk_row "Oslo" 2].

(** Worker 0 starts, takes "a", receives two records and emits them; the
    writer then writes the batch. *)
Definition first_batch : list Action :=
  [AWorker 0 (WaStart true)]
  ++ fetch_and_emit 0 (answers two_rows)
  ++ [AWriter ["location"; "placeID"]].



(** ** Vocabulary for the statements about expansion *)

(** What is left of a worker's iteration once the records are deduplicated:
    the prefix and the letters whose children are still to be put. *)
Definition remaining (w : Worker) : option (string * list string) :=
  match w with
  | WEmit p data _ => Some (p, expansion data p)
  | WPutting p chs => Some (p, chs)
  | _ => None
  end.

Definition children (p : string) (chs : list string) : list string :=
  (λ ch, p +:+ ch) <$> chs.

(** Scenario A: worker 0 starts, takes "a", receives ten records, emits
    them and puts all the children. *)
Definition scenario_a : list Action :=
  [AWorker 0 (WaStart true)]
  ++ fetch_and_emit 0 (answers ten_rows)
  ++ replicate 26 (AWorker 0 WaPut).

(** Worker 0 starts, takes "a", receives ten records and deduplicates. *)
Definition a_deduplicated : list Action :=
  [AWorker 0 (WaStart true); AWorker 0 WaGet;
   AWorker 0 (WaQuery (answers ten_rows)); AWorker 0 WaCount;
   AWorker 0 WaDedup].

Definition a_expanded : list Action :=
  AWorker 0 WaEmit :: replicate 26 (AWorker 0 WaPut).

(** The state and the events a run ends with (the start state of a run on
    empty files when the run is not possible). *)
Definition state_after (d : Disk) (acts : list Action) : State :=
  match run d acts with
  | Some (st, _) => st
  | None => mkState ∅ (q_new 0) (q_new 0) 0 None [] WrExited MLoop d
  end.

Definition events_after (d : Disk) (acts : list Action) : list Event :=
  match run d acts with
  | Some (_, evs) => evs
  | None => []
  end.

Definition exec_state (st : State) (acts : list Action) : State :=
  match exec st acts with
  | Some (st', _) => st'
  | None => st
  end.

Definition exec_events (st : State) (acts : list Action) : list Event :=
  match exec st acts with
  | Some (_, evs) => evs
  | None => []
  end.

(** [ran x]: the run [x] was possible. *)
Definition ran {A} (x : option A) : Prop :=
  match x with
  | Some _ => True
  | None => False
  end.

(** * Further vocabulary: sleeping, uncaught failures, checkpoints, shutdown *)


(** ** Vocabulary for further statements *)

(** The seconds a call spent in [time.sleep]. *)
Definition slept (eff : list Effect) : Z :=
  foldr (λ e acc, match e with ESleep s => s + acc | _ => acc end) 0 eff.

(** An attempt whose outcome [api_call] neither returns from nor catches:
    an error status other than 404, a body that is not JSON, or any
    exception other than a read timeout or a connection error. *)
Definition uncaught (a : Attempt) : Prop :=
  match a with
  | Responds status body =>
    status ≠ 404 ∧ (raise_for_status status = true ∨ body = None)
  | OtherError => True
  | _ => False
  end.

Definition is_dead (w : Worker) : Prop := is_alive w = false.

(** A network that times out once and then answers 503. *)
Definition timeout_then_503 : nat → Attempt :=
  λ m, match m with
       | O => ReadTimeout
       | S _ => Responds 503 (Some [])
       end.

(** A run started on a checkpoint without pending prefixes has nothing to
    do: no prefix in the frontier or in a worker's hands, nothing but the
    end marker on the channel, and the files as they were. *)
Definition idle_inv (c : Checkpoint) (d : Disk) (st : State) : Prop :=
  q_items (prefix_q st) = []
  ∧ Forall (λ w, in_flight w = None) (workers st)
  ∧ Forall (λ b, b = None) (q_items (rows_q st))
  ∧ seen_ids st = ck_seen_ids c
  ∧ processed_counter st = ck_processed c
  ∧ disk st = d.

Definition is_exit (e : Event) : Prop :=
  match e with EvExit _ => True | _ => False end.

Definition finished_disk : Disk :=
  mkDisk (Some (PickleState (mkCheckpoint {["k1"; "k2"]} [] 27))) None [].

(** The whole of [crawl] when the frontier is empty from the start. *)
Definition idle_crawl : list Action :=
  ((λ i, AWorker i (WaStart true)) <$> seq 0 8)
  ++ ((λ i, AWorker i WaTimeout) <$> seq 0 8)
  ++ [AMain MaBackup; AMain MaLoopExit; AMain MaSentinel; AWriter [];
      AMain MaJoin; AMain MaSave].


(** Where the shutdown sequence of [crawl] stands: until the main thread
    has put the end marker, the writer runs and the channel holds batches
    only; once the main loop is left every worker is dead; the marker is
    the last item the channel ever receives; and [crawl] gets past
    [writer.join()] only when the writer has drained the channel. *)
Definition shutdown_inv (st : State) : Prop :=
  match main st with
  | MLoop =>
    writer st = WrRunning ∧ Forall is_Some (q_items (rows_q st))
  | MStop =>
    writer st = WrRunning ∧ Forall is_Some (q_items (rows_q st))
    ∧ Forall is_dead (workers st)
  | MJoin =>
    Forall is_dead (workers st)
    ∧ ((writer st = WrRunning
        ∧ ∃ bs, q_items (rows_q st) = (Some <$> bs) ++ [None])
       ∨ (writer st = WrExited ∧ q_items (rows_q st) = []))
  | MSave =>
    Forall is_dead (workers st)
    ∧ writer st = WrExited ∧ q_items (rows_q st) = []
  | MDone uniq proc =>
    Forall is_dead (workers st)
    ∧ writer st = WrExited ∧ q_items (rows_q st) = []
    ∧ uniq = size (seen_ids st) ∧ proc = processed_counter st
    ∧ state_file (disk st)
      = Some (PickleState (mkCheckpoint (seen_ids st) [] proc))
  end.

(** Seven workers fail at start-up; worker 0 handles "a", then takes "b"
    and dies of a server error; [crawl] shuts down with 24 prefixes still
    in the frontier. *)
Definition abandoned_crawl : list Action :=
  ((λ i, AWorker i (WaStart false)) <$> seq 1 7)
  ++ [AWorker 0 (WaStart true)]
  ++ fetch_and_emit 0 (answers two_rows)
  ++ [AWorker 0 WaDone; AWorker 0 WaGet;
      AWorker 0 (WaQuery (λ _, Responds 500 None));
      AMain MaLoopExit; AMain MaSentinel;
      AWriter ["location"; "placeID"]; AWriter [];
      AMain MaJoin; AMain MaSave].

(** A key is settled when it is in the shared set and no worker holds a
    record with it for forwarding. *)
Definition settled (k : string) (st : State) : Prop :=
  k ∈ seen_ids st ∧ k ∉ keys (held (workers st)).

(** A record without the [placeID] field. *)
Definition no_place : Row := {[ "location" := JStr "Oslo" ]}.

(** Worker 0 starts, takes "a" and receives a good record followed by one
    without [placeID]. *)
Definition malformed_answer : list Action :=
  [AWorker 0 (WaStart true); AWorker 0 WaGet;
   AWorker 0 (WaQuery (answers [mk_row "Riga" 1; no_place]));
   AWorker 0 WaCount].

(** [PROXY_LIST[thread_id % len(PROXY_LIST)]], the argument [worker] gives
    to [make_session]; [None] stands for the [ZeroDivisionError] of an
    empty list. *)
Definition proxy_of (PROXY_LIST : list string) (thread_id : nat)
    : option string :=
  match length PROXY_LIST with
  | O => None
  | S _ => PROXY_LIST !! (thread_id mod length PROXY_LIST)%nat
  end.

(** * Small checks of the definitions *)

Example uid_ex : uid (mk_row "Riga" 17) = Some "Riga:17".
Proof. vm_compute. reflexivity. Qed.

Example dedup_ex :
  (dedup_loop [mk_row "Riga" 17; mk_row "Oslo" 2; mk_row "Riga" 17] {["Oslo:2"]} []).2
  = Some [mk_row "Riga" 17].
Proof. vm_compute. reflexivity. Qed.

(** * Properties of [api_call] *)

Lemma api_call_unfold_retry fuel net k prefix r :
  transient (net k) → r ≠ 0 →
  api_call (S fuel) net k prefix r =
  match api_call fuel net (S k) prefix (r - 1) with
  | Some (res, eff) => Some (res, EGet (autocomplete_url prefix) :: ESleep 2 :: eff)
  | None => None
  end.
Proof.
  intros [Hk|Hk] Hr; simpl; rewrite Hk; destruct (decide (r = 0)); done.
Qed.

Lemma api_call_unfold_exhausted fuel net k prefix :
  transient (net k) →
  api_call (S fuel) net k prefix 0 =
  Some (Returned [], [EGet (autocomplete_url prefix); ELogTimeout prefix]).
Proof. intros [Hk|Hk]; simpl; rewrite Hk; done. Qed.

Lemma api_call_unfold_404 fuel net k prefix r body :
  net k = Responds 404 body →
  api_call (S fuel) net k prefix r =
  Some (Returned [], [EGet (autocomplete_url prefix); EStat 404]).
Proof. intros Hk; simpl; rewrite Hk; done. Qed.

(** An attempt that is not a caught failure ends the call at once. *)
Lemma api_call_final fuel net k prefix r :
  ¬ transient (net k) →
  ∃ res eff, api_call (S fuel) net k prefix r = Some (res, eff)
             ∧ attempts eff = 1%nat.
Proof.
  intros Hk. simpl. destruct (net k) as [status body| | |] eqn:E.
  - destruct (decide (status = 404)); [eauto|].
    destruct (raise_for_status status); [eauto|].
    destruct body; eauto.
  - destruct Hk; left; done.
  - destruct Hk; right; done.
  - eauto.
Qed.

Lemma attempts_cons_get u eff : attempts (EGet u :: eff) = S (attempts eff).
Proof. reflexivity. Qed.

Lemma attempts_cons_sleep s eff : attempts (ESleep s :: eff) = attempts eff.
Proof. reflexivity. Qed.

(** With a budget [r >= 0] the call returns within [r + 1] attempts, given
    fuel for that many. *)
Lemma api_call_total_nat (n : nat) : ∀ net k prefix r,
  Z.to_nat r = n → 0 ≤ r →
  ∃ res eff,
    (∀ fuel, (n < fuel)%nat → api_call fuel net k prefix r = Some (res, eff))
    ∧ (1 ≤ attempts eff ≤ n + 1)%nat.
Proof.
  induction n as [|n IH]; intros net k prefix r Hn Hr.
  - assert (r = 0) as -> by lia.
    destruct (decide (transient (net k))) as [Ht|Ht].
    + exists (Returned []), [EGet (autocomplete_url prefix); ELogTimeout prefix].
      split; [|by compute; lia].
      intros [|fuel] ?; [lia|]. by apply api_call_unfold_exhausted.
    + destruct (api_call_final 0 net k prefix 0 Ht) as (res & eff & He & Ha).
      exists res, eff. split; [|lia].
      intros [|fuel] ?; [lia|].
      destruct (api_call_final fuel net k prefix 0 Ht) as (res' & eff' & He' & _).
      simpl in He, He' |- *. destruct (net k) as [status body| | |];
        repeat case_match; simplify_eq; done.
  - destruct (decide (transient (net k))) as [Ht|Ht].
    + destruct (IH net (S k) prefix (r - 1)) as (res & eff & Hf & Ha); [lia..|].
      exists res, (EGet (autocomplete_url prefix) :: ESleep 2 :: eff).
      split.
      * intros [|fuel] ?; [lia|].
        rewrite api_call_unfold_retry by (done || lia).
        rewrite Hf by lia. done.
      * rewrite attempts_cons_get, attempts_cons_sleep. lia.
    + destruct (api_call_final 0 net k prefix r Ht) as (res & eff & He & Ha).
      exists res, eff. split; [|lia].
      intros [|fuel] ?; [lia|].
      simpl in He |- *. destruct (net k) as [status body| | |];
        repeat case_match; simplify_eq; done.
Qed.

(** With a negative budget and a network that never answers the call never
    returns: the fuel always runs out. *)
Lemma api_call_negative_diverges fuel : ∀ net k prefix r,
  r < 0 → (∀ j, transient (net j)) →
  api_call fuel net k prefix r = None.
Proof.
  induction fuel as [|fuel IH]; intros net k prefix r Hr Hnet; [done|].
  rewrite api_call_unfold_retry by (auto || lia).
  rewrite IH by (auto || lia). done.
Qed.

(** [j] caught failures in a row, within the budget, are each followed by a
    two-second sleep and a further attempt with the budget lowered by one. *)
Lemma api_call_retries (j : nat) : ∀ fuel net k prefix r,
  (∀ m, (m < j)%nat → transient (net (k + m)%nat)) →
  Z.of_nat j ≤ r →
  api_call (j + fuel) net k prefix r =
  match api_call fuel net (k + j) prefix (r - Z.of_nat j) with
  | Some (res, eff) => Some (res, retried prefix j ++ eff)
  | None => None
  end.
Proof.
  induction j as [|j IH]; intros fuel net k prefix r Hnet Hr.
  - simpl. rewrite Nat.add_0_r, Z.sub_0_r. by destruct (api_call _ _ _ _ _) as [[??]|].
  - replace (S j + fuel)%nat with (S (j + fuel)) by lia.
    rewrite api_call_unfold_retry; [| |lia].
    2:{ specialize (Hnet 0%nat). rewrite Nat.add_0_r in Hnet. apply Hnet. lia. }
    rewrite IH; [| |lia].
    2:{ intros m Hm. replace (S k + m)%nat with (k + S m)%nat by lia. apply Hnet. lia. }
    replace (S k + j)%nat with (k + S j)%nat by lia.
    replace (r - 1 - Z.of_nat j) with (r - Z.of_nat (S j)) by lia.
    by destruct (api_call _ _ _ _ _) as [[??]|].
Qed.

Lemma attempts_retried prefix j eff :
  attempts (retried prefix j ++ eff) = (j + attempts eff)%nat.
Proof.
  induction j as [|j IH]; [done|].
  unfold retried in *. simpl. rewrite attempts_cons_get, attempts_cons_sleep.
  by rewrite IH.
Qed.

(** C10. For every network behaviour, prefix and retry budget [r >= 0],
    [api_call] returns once it has fuel for [r + 1] calls, after at least
    one and at most [r + 1] network attempts.  A retry is a self-call with
    the budget [r - 1], which is smaller and still non-negative, and with
    the budget at zero a caught failure returns the empty list without a
    further call. *)
Theorem api_call_bounded_retry (net : nat → Attempt) (k : nat)
    (prefix : string) (r : Z) :
  0 ≤ r →
  (∃ res eff,
      (∀ fuel, (Z.to_nat r < fuel)%nat →
               api_call fuel net k prefix r = Some (res, eff))
      ∧ (1 ≤ attempts eff ≤ Z.to_nat r + 1)%nat)
  ∧ (∀ fuel, transient (net k) → r ≠ 0 →
       0 ≤ r - 1 < r
       ∧ api_call (S fuel) net k prefix r =
         match api_call fuel net (S k) prefix (r - 1) with
         | Some (res, eff) =>
           Some (res, EGet (autocomplete_url prefix) :: ESleep 2 :: eff)
         | None => None
         end)
  ∧ (∀ fuel, transient (net k) → r = 0 →
       api_call (S fuel) net k prefix r =
       Some (Returned [], [EGet (autocomplete_url prefix); ELogTimeout prefix])).
Proof.
  intros Hr. split; [|split].
  - by apply (api_call_total_nat (Z.to_nat r)).
  - intros fuel Ht Hne. split; [lia|]. by apply api_call_unfold_retry.
  - intros fuel Ht ->. by apply api_call_unfold_exhausted.
Qed.

Lemma api_call_bounded_retry_witness :
  0 ≤ 3 ∧
  ∃ res eff,
    (∀ fuel, (3 < fuel)%nat →
             api_call fuel (λ _, ReadTimeout) 0 "riga" 3 = Some (res, eff))
    ∧ (1 ≤ attempts eff ≤ 4)%nat.
Proof.
  split; [lia|].
  exact (proj1 (api_call_bounded_retry (λ _, ReadTimeout) 0 "riga" 3
                  ltac:(lia))).
Defined.

(** * The queues *)

Lemma q_put_inv {A} (x : A) q q' :
  q_put x q = Some q' →
  q_full q = false
  ∧ q_items q' = q_items q ++ [x]
  ∧ q_unfinished q' = q_unfinished q + 1
  ∧ q_maxsize q' = q_maxsize q.
Proof. unfold q_put. destruct (q_full q); intros; simplify_eq; done. Qed.

Lemma q_put_unbounded {A} (x : A) q :
  q_maxsize q ≤ 0 →
  q_put x q = Some (mkQueue (q_items q ++ [x]) (q_unfinished q + 1) (q_maxsize q)).
Proof.
  intros Hm. unfold q_put, q_full.
  destruct (0 <? q_maxsize q) eqn:E; [apply Z.ltb_lt in E; lia|done].
Qed.

Lemma q_get_inv {A} (x : A) q q' :
  q_get q = Some (x, q') →
  q_items q = x :: q_items q'
  ∧ q_unfinished q' = q_unfinished q
  ∧ q_maxsize q' = q_maxsize q.
Proof. unfold q_get. destruct (q_items q) eqn:E; intros; simplify_eq; done. Qed.

Lemma q_task_done_inv {A} (q q' : Queue A) :
  q_task_done q = Some q' →
  q_items q' = q_items q
  ∧ q_unfinished q' = q_unfinished q - 1
  ∧ 0 ≤ q_unfinished q'
  ∧ q_maxsize q' = q_maxsize q.
Proof.
  unfold q_task_done. destruct (q_unfinished q - 1 <? 0) eqn:E;
    intros; simplify_eq; simpl.
  apply Z.ltb_ge in E. done.
Qed.



(** * Case analysis of a transition *)

#[local] Arguments api_call : simpl never.

Ltac step_inv H :=
  match type of H with
  | step ?st ?a = Some _ =>
    let i := fresh "i" in let wa := fresh "wa" in
    let w := fresh "w" in let Hw := fresh "Hw" in
    destruct a as [i wa | order | ma]; simpl in H;
    [ destruct (workers st !! i) as [w|] eqn:Hw; [|discriminate H];
      destruct w, wa; simpl in H; try discriminate H;
      repeat case_match; simplify_eq
    | unfold writer_step in H; repeat case_match; simplify_eq
    | unfold main_step in H; destruct ma; repeat case_match; simplify_eq ]
  end.

Ltac queue_facts :=
  repeat match goal with
  | H : q_put _ _ = Some _ |- _ => apply q_put_inv in H; destruct H as (?&?&?&?)
  | H : q_get _ = Some _ |- _ => apply q_get_inv in H; destruct H as (?&?&?)
  | H : q_task_done _ = Some _ |- _ =>
      apply q_task_done_inv in H; destruct H as (?&?&?&?)
  end.

Lemma crawl_init_inv d st :
  crawl_init d = Some st →
  ∃ seen queue_list processed,
    load_previous d = Some (seen, queue_list, processed)
    ∧ st = mkState seen
             (mkQueue queue_list (Z.of_nat (length queue_list)) 0)
             (q_new ROWS_Q_MAXSIZE) processed None
             (replicate N_THREADS WStart) WrRunning MLoop d.
Proof.
  unfold crawl_init. destruct (load_previous d) as [[[??]?]|]; [|done].
  intros; simplify_eq. eauto.
Qed.

(** What a transition of another thread leaves alone. *)
Lemma step_frame st a st' evs i :
  step st a = Some (st', evs) →
  (∀ wa, a ≠ AWorker i wa) →
  workers st' !! i = workers st !! i ∧ puts_of i evs = [].
Proof.
  intros Hstep Hne. step_inv Hstep; simpl; try done.
  all: assert (i0 ≠ i) by (intros ->; by eapply Hne).
  all: rewrite ?list_lookup_insert_ne by done; try done.
  all: simpl; destruct (decide (i0 = i)); done.
Qed.

Lemma step_length_workers st a st' evs :
  step st a = Some (st', evs) → length (workers st') = length (workers st).
Proof.
  intros Hstep. step_inv Hstep; simpl; rewrite ?length_insert; done.
Qed.

(** * The result channel *)


Lemma action_of_worker (a : Action) (i : nat) :
  (∃ wa, a = AWorker i wa) ∨ (∀ wa, a ≠ AWorker i wa).
Proof.
  destruct a as [j wa| |]; [|by right..].
  destruct (decide (j = i)) as [->|Hne]; [left; eauto|right; congruence].
Qed.


Lemma exec_app st acts1 acts2 :
  exec st (acts1 ++ acts2) =
  match exec st acts1 with
  | Some (st1, e1) =>
    match exec st1 acts2 with
    | Some (st2, e2) => Some (st2, e1 ++ e2)
    | None => None
    end
  | None => None
  end.
Proof.
  revert st. induction acts1 as [|a acts1 IH]; intros st; simpl.
  - by destruct (exec st acts2) as [[??]|].
  - destruct (step st a) as [[st1 e1]|]; [|done].
    rewrite IH. destruct (exec st1 acts1) as [[st2 e2]|]; [|done].
    destruct (exec st2 acts2) as [[st3 e3]|]; [|done].
    by rewrite (assoc_L (++)).
Qed.

Lemma in_run_exec d acts : ∀ st st' evs,
  in_run d st → exec st acts = Some (st', evs) → in_run d st'.
Proof.
  induction acts as [|a acts IH]; intros st st' evs Hrun Hexec; simpl in Hexec.
  - by simplify_eq.
  - destruct (step st a) as [[st1 e1]|] eqn:Hstep; [|done].
    destruct (exec st1 acts) as [[st2 e2]|] eqn:Hrest; [|done].
    simplify_eq. eapply IH; [|done]. by eapply in_run_step.
Qed.

Lemma in_run_exec_init d acts st0 st evs :
  crawl_init d = Some st0 → exec st0 acts = Some (st, evs) → in_run d st.
Proof. intros Hinit. apply in_run_exec. by apply in_run_init. Qed.


Lemma in_run_run d acts st evs :
  run d acts = Some (st, evs) → in_run d st.
Proof.
  unfold run. destruct (crawl_init d) as [st0|] eqn:Hinit; [|done].
  by apply in_run_exec_init.
Qed.


(** * The depth bound *)



Lemma py_list_length s : length (py_list s) = String.length s.
Proof. induction s; simpl; [done|]. by f_equal. Qed.

Lemma expansion_cases data prefix :
  (length data = 10%nat ∧ (String.length prefix < MAX_DEPTH)%nat
   ∧ expansion data prefix = py_list ascii_lowercase)
  ∨ ((length data ≠ 10%nat ∨ (MAX_DEPTH ≤ String.length prefix)%nat)
     ∧ expansion data prefix = []).
Proof.
  unfold expansion. destruct (decide _) as [[??]|?]; [by left|right].
  split; [|done].
  destruct (decide (length data = 10%nat)); [right; lia|by left].
Qed.










(** * Deduplication *)

Lemma keys_app rows1 rows2 : keys (rows1 ++ rows2) = keys rows1 ++ keys rows2.
Proof. apply omap_app. Qed.

Global Instance keys_Permutation : Proper ((≡ₚ) ==> (≡ₚ)) keys.
Proof. intros ?? H. unfold keys. by rewrite H. Qed.

Lemma dedup_loop_spec data : ∀ seen acc seen' r,
  dedup_loop data seen acc = (seen', r) →
  seen ⊆ seen'
  ∧ ∀ rows, r = Some rows →
      ∃ new, rows = acc ++ new
             ∧ new `sublist_of` data
             ∧ Forall has_uid new
             ∧ NoDup (keys new)
             ∧ (∀ k, k ∈ keys new → k ∉ seen)
             ∧ seen' = seen ∪ list_to_set (keys new).
Proof.
  induction data as [|obj data IH]; intros seen acc seen' r Hloop; simpl in Hloop.
  - simplify_eq. split; [done|]. intros rows ?; simplify_eq.
    exists []. rewrite app_nil_r. repeat split; try done; try constructor.
    + intros k Hk. by apply elem_of_nil in Hk.
    + set_solver.
  - destruct (uid obj) as [k|] eqn:Hk.
    2:{ simplify_eq. split; [done|]. intros; simplify_eq. }
    destruct (decide (k ∈ seen)) as [Hin|Hnin].
    + apply IH in Hloop as [Hsub Hrows]. split; [done|].
      intros rows ->. destruct (Hrows _ eq_refl) as (new & ? & ? & ? & ? & ? & ?).
      exists new. repeat split; try done. by apply sublist_cons.
    + apply IH in Hloop as [Hsub Hrows]. split; [set_solver|].
      intros rows ->.
      destruct (Hrows _ eq_refl) as (new & -> & Hs & Hu & Hnd & Hfresh & ->).
      exists (obj :: new). repeat split.
      * by rewrite <-(assoc_L (++)).
      * by apply sublist_skip.
      * constructor; [by exists k|done].
      * unfold keys in *. simpl. rewrite Hk. simpl. constructor; [|done].
        intros Hin. apply Hfresh in Hin. set_solver.
      * unfold keys in *. simpl. rewrite Hk. simpl.
        intros k' [->|Hin]%elem_of_cons; [done|].
        apply Hfresh in Hin. set_solver.
      * unfold keys in *. simpl. rewrite Hk. simpl. set_solver.
Qed.

Lemma held_insert ws : ∀ i w w',
  ws !! i = Some w →
  held (<[i:=w']> ws) ++ held_rows w ≡ₚ held ws ++ held_rows w'.
Proof.
  unfold held. induction ws as [|w0 ws IH]; intros i w w' Hw; [done|].
  destruct i as [|i]; simpl in *.
  - simplify_eq. solve_Permutation.
  - rewrite <-!(assoc_L (++)). by rewrite (IH i w w' Hw).
Qed.

Lemma held_insert_same ws i w w' :
  ws !! i = Some w → held_rows w = [] → held_rows w' = [] →
  held (<[i:=w']> ws) ≡ₚ held ws.
Proof.
  intros Hw E1 E2. pose proof (held_insert ws i w w' Hw) as H.
  by rewrite E1, E2, !app_nil_r in H.
Qed.

Lemma emitted_app e1 e2 : emitted (e1 ++ e2) = emitted e1 ++ emitted e2.
Proof. unfold emitted. by rewrite omap_app, concat_app. Qed.

Lemma queued_snoc q b :
  queued (mkQueue (q_items q ++ [b]) (q_unfinished q + 1) (q_maxsize q)) =
  queued q ++ default [] b.
Proof.
  unfold queued. simpl. rewrite omap_app, concat_app. simpl.
  destruct b; simpl; by rewrite ?app_nil_r.
Qed.

Lemma writer_iter_sinks d0 order rows fref d W f d' :
  rows ≠ [] →
  sinks_rel d0 fref W d →
  writer_iter order rows fref d = (f, d') →
  sinks_rel d0 f (W ++ rows) d'.
Proof.
  intros Hne [Hj Hc] Hit. unfold writer_iter in Hit.
  destruct fref as [fn|].
  - simplify_eq. destruct Hc as [Ho Hc]. split; simpl.
    + by rewrite Hj, (assoc_L (++)).
    + split; [done|]. rewrite Hc. simpl. by rewrite fmap_app, (assoc_L (++)).
  - destruct rows as [|r rows]; [done|]. simplify_eq.
    destruct Hc as [-> Hc]. split; simpl.
    + unfold ensure_csv_header.
      destruct (csv_file d); simpl; rewrite Hj, app_nil_r; done.
    + split; [by eexists|].
      unfold ensure_csv_header, csv_base. rewrite <-Hc.
      destruct (csv_file d) eqn:Hcsv; simpl; rewrite ?Hcsv; done.
Qed.

Lemma uniq_inv_frame d0 seen0 E st st' :
  uniq_inv d0 seen0 E st →
  queued (rows_q st') = queued (rows_q st) →
  Forall (λ b, b ≠ Some []) (q_items (rows_q st')) →
  fieldnames_ref st' = fieldnames_ref st →
  json_file (disk st') = json_file (disk st) →
  csv_file (disk st') = csv_file (disk st) →
  seen_ids st ⊆ seen_ids st' →
  held (workers st') ≡ₚ held (workers st) →
  uniq_inv d0 seen0 E st'.
Proof.
  intros (W & HE & [Hj Hc] & Hu & Hnd & Hk & Hsub & Hne) Hq Hne' Hf Hj' Hc' Hseen Hh.
  exists W. rewrite Hq, Hf, Hh. unfold sinks_rel. rewrite Hj', Hc'.
  repeat split; try done.
  - rewrite Hh in H. apply Hseen. by apply Hk.
  - rewrite Hh in H. by apply Hk.
  - set_solver.
Qed.

Lemma uniq_inv_step d0 seen0 E st a st' evs :
  uniq_inv d0 seen0 E st →
  step st a = Some (st', evs) →
  uniq_inv d0 seen0 (E ++ emitted evs) st'.
Proof.
  intros Hinv Hstep.
  pose proof Hinv as (W & HE & Hs & Hu & Hnd & Hk & Hsub & Hne).
  step_inv Hstep; simpl; rewrite ?app_nil_r.
  all: try (eapply uniq_inv_frame; [exact Hinv|simpl; try done..];
            try (eapply held_insert_same; [exact Hw|done|done]); fail).
  - (* the deduplication loop ran to its end *)
    match goal with H : dedup_loop _ _ _ = _ |- _ =>
      apply dedup_loop_spec in H as [Hseen Hrows] end.
    destruct (Hrows _ eq_refl) as (new & -> & _ & Hnu & Hnnd & Hfresh & ->).
    simpl in *.
    pose proof (held_insert _ _ _ (WEmit prefix0 data new) Hw) as Hh.
    simpl in Hh. rewrite app_nil_r in Hh.
    exists W. simpl. rewrite Hh, !(assoc_L (++)).
    split; [done|]. split; [done|]. split; [|split; [|split; [|split]]].
    + by apply Forall_app.
    + rewrite keys_app. apply NoDup_app.
      split; [done|]. split; [|done].
      intros k Hin Hin'. apply Hk in Hin as [Hin _]. by apply Hfresh in Hin'.
    + intros k Hin. rewrite Hh, !(assoc_L (++)), keys_app in Hin.
      apply elem_of_app in Hin as [Hin|Hin].
      * apply Hk in Hin as [??]. set_solver.
      * split; [set_solver|]. apply Hfresh in Hin. set_solver.
    + set_solver.
    + done.
  - (* the deduplication loop raised *)
    match goal with H : dedup_loop _ _ _ = _ |- _ =>
      apply dedup_loop_spec in H as [Hseen _] end.
    eapply uniq_inv_frame; [exact Hinv|simpl; try done..].
    eapply held_insert_same; [exact Hw|done|done].
  - (* a batch is put on the channel *)
    queue_facts. unfold emitted. simpl. rewrite app_nil_r.
    pose proof (held_insert _ _ _ (WPutting prefix0 (expansion data prefix0)) Hw)
      as Hh.
    simpl in Hh. rewrite app_nil_r in Hh.
    exists W. simpl.
    assert (queued q = queued (rows_q st) ++ (g :: l0)) as Hq.
    { unfold queued. rewrite H0, omap_app, concat_app. simpl.
      by rewrite app_nil_r. }
    rewrite Hq, H0.
    assert (((W ++ queued (rows_q st)) ++ g :: l0)
              ++ held (<[i:=WPutting prefix0 (expansion data prefix0)]> (workers st))
            ≡ₚ (W ++ queued (rows_q st)) ++ held (workers st)) as Hp.
    { rewrite <-Hh. solve_Permutation. }
    split; [by rewrite (assoc_L (++))|]. split; [done|].
    split; [by rewrite Hp|]. split; [by rewrite Hp|].
    split; [|split; [done|]].
    + intros k Hin. rewrite Hp in Hin. by apply Hk.
    + apply Forall_app. split; [done|]. by repeat constructor.
  - (* the writer takes a batch *)
    queue_facts. simpl in *.
    match goal with H : q_items (rows_q st) = _ |- _ => rename H into Hitems end.
    rewrite Hitems in Hne. inversion_clear Hne as [|?? Hb Hrest].
    assert (l ≠ []) as Hl by (intros ->; done).
    exists (W ++ l). simpl.
    assert (queued (rows_q st) = l ++ queued q0) as Hq.
    { unfold queued. rewrite Hitems, H5. done. }
    rewrite Hq, !(assoc_L (++)) in *.
    split; [done|]. split; [by eapply writer_iter_sinks|].
    repeat split; try done; try (by apply Hk). congruence.
  - queue_facts. simpl in *.
    match goal with H : q_items (rows_q st) = _ |- _ => rename H into Hitems end.
    rewrite Hitems in Hne. inversion_clear Hne as [|?? Hb Hrest].
    assert (l ≠ []) as Hl by (intros ->; done).
    exists (W ++ l). simpl.
    assert (queued (rows_q st) = l ++ queued q) as Hq.
    { unfold queued. rewrite Hitems. done. }
    rewrite Hq, !(assoc_L (++)) in *.
    split; [done|]. split; [by eapply writer_iter_sinks|].
    repeat split; try done; try (by apply Hk).
  - (* the writer takes the stop signal *)
    queue_facts.
    match goal with H : q_items (rows_q st) = _ |- _ => rename H into Hitems end.
    eapply uniq_inv_frame; [exact Hinv|simpl; try done..].
    + unfold queued. by rewrite Hitems.
    + rewrite Hitems in Hne. by inversion Hne.
  - (* the stop signal is put *)
    queue_facts.
    match goal with H : q_items _ = q_items _ ++ _ |- _ => rename H into Hitems end.
    eapply uniq_inv_frame; [exact Hinv|simpl; try done..].
    + unfold queued. rewrite Hitems, omap_app, concat_app. simpl.
      by rewrite app_nil_r.
    + rewrite Hitems. apply Forall_app. split; [done|]. by repeat constructor.
Qed.

Lemma uniq_inv_init d st0 :
  crawl_init d = Some st0 → uniq_inv d (seen_ids st0) [] st0.
Proof.
  intros Hinit. apply crawl_init_inv in Hinit as (s & q & p & _ & ->).
  exists []. simpl. split; [done|].
  split; [split; [by rewrite app_nil_r|done]|].
  split; [constructor|]. split; [constructor|].
  split; [intros k Hin; by apply elem_of_nil in Hin|].
  split; [done|constructor].
Qed.

Lemma uniq_inv_exec d0 seen0 acts : ∀ E st st' evs,
  uniq_inv d0 seen0 E st →
  exec st acts = Some (st', evs) →
  uniq_inv d0 seen0 (E ++ emitted evs) st'.
Proof.
  induction acts as [|a acts IH]; intros E st st' evs Hinv Hexec; simpl in Hexec.
  - simplify_eq. by rewrite app_nil_r.
  - destruct (step st a) as [[st1 e1]|] eqn:Hstep; [|done].
    destruct (exec st1 acts) as [[st2 e2]|] eqn:Hrest; [|done].
    simplify_eq. rewrite emitted_app, (assoc_L (++)).
    eapply IH; [|done]. by eapply uniq_inv_step.
Qed.






(** * The frontier's count of unfinished tasks *)

Lemma sum_list_with_insert {A} (f : A → nat) (l : list A) : ∀ i x y,
  l !! i = Some x →
  (sum_list_with f (<[i:=y]> l) + f x = sum_list_with f l + f y)%nat.
Proof.
  induction l as [|z l IH]; intros i x y Hi; [done|].
  destruct i as [|i]; simpl in *.
  - simplify_eq. lia.
  - specialize (IH i x y Hi). lia.
Qed.

(** Every prefix in the frontier or in a worker's hands is counted as
    unfinished, so [task_done] at the end of an iteration never raises. *)
Lemma outstanding_le_unfinished d st :
  in_run d st → outstanding st ≤ q_unfinished (prefix_q st).
Proof.
  unfold outstanding.
  induction 1 as [st Hinit | st a st' evs Hrun IH Hstep].
  - apply crawl_init_inv in Hinit as (?&?&?&_&->). simpl. lia.
  - step_inv Hstep; simpl; queue_facts; try done.
    all: match goal with
         | |- context [<[?i:=?w]> (workers ?s)] =>
           pose proof (sum_list_with_insert holds_prefix _ _ _ w Hw) as Hsum
         | _ => idtac
         end.
    all: unfold holds_prefix in *; simpl in *.
    all: repeat match goal with
         | H : q_items _ = _ |- _ => rewrite H in *
         | H : q_unfinished _ = _ |- _ => rewrite H in *
         end.
    all: rewrite ?length_app in *; simpl in *; try lia.
Qed.

Lemma holds_prefix_le_sum ws i w :
  ws !! i = Some w → (holds_prefix w ≤ sum_list_with holds_prefix ws)%nat.
Proof.
  intros Hw.
  pose proof (sum_list_with_insert holds_prefix ws i w WIdle Hw) as Hsum.
  change (holds_prefix WIdle) with 0%nat in Hsum. lia.
Qed.

Lemma task_done_possible d st i w p :
  in_run d st → workers st !! i = Some w → in_flight w = Some p →
  ∃ q, q_task_done (prefix_q st) = Some q
       ∧ q_items q = q_items (prefix_q st).
Proof.
  intros Hrun Hw Hp.
  pose proof (outstanding_le_unfinished d st Hrun) as Hle.
  pose proof (holds_prefix_le_sum _ _ _ Hw) as Hsum.
  unfold holds_prefix in Hsum at 1. rewrite Hp in Hsum.
  unfold outstanding in Hle. unfold q_task_done.
  destruct (q_unfinished (prefix_q st) - 1 <? 0) eqn:E.
  - apply Z.ltb_lt in E. lia.
  - eauto.
Qed.

Lemma lookup_insert_worker (ws : list Worker) i w w0 :
  ws !! i = Some w0 → <[i:=w]> ws !! i = Some w.
Proof. intros Hw. apply list_lookup_insert_eq. by eapply lookup_lt_Some. Qed.

Lemma step_worker st i wa w w' st1 evs :
  workers st !! i = Some w →
  worker_step i wa w st = Some (w', st1, evs) →
  step st (AWorker i wa) = Some (set_worker i w' st1, evs).
Proof. intros Hw Hws. simpl. by rewrite Hw, Hws. Qed.

Lemma exec_cons st a rest st1 e1 st2 e2 :
  step st a = Some (st1, e1) →
  exec st1 rest = Some (st2, e2) →
  exec st (a :: rest) = Some (st2, e1 ++ e2).
Proof. intros H1 H2. simpl. by rewrite H1, H2. Qed.

(** A worker holding a prefix whose query returned nothing finishes the
    iteration: the prefix is counted, nothing is emitted, nothing is put on
    the frontier, and the worker is back at its [get]. *)
Lemma empty_result_iteration d st i prefix net eff :
  in_run d st →
  workers st !! i = Some (WFetched prefix) →
  api_call API_FUEL net 0 prefix DEFAULT_RETRIES = Some (Returned [], eff) →
  ∃ st',
    exec st [AWorker i (WaQuery net); AWorker i WaCount; AWorker i WaDedup;
             AWorker i WaEmit; AWorker i WaDone]
    = Some (st', [EvApi i eff])
    ∧ workers st' !! i = Some WIdle
    ∧ processed_counter st' = processed_counter st + 1
    ∧ seen_ids st' = seen_ids st
    ∧ rows_q st' = rows_q st
    ∧ q_items (prefix_q st') = q_items (prefix_q st).
Proof.
  intros Hrun Hw Hapi.
  destruct (task_done_possible d st i _ prefix Hrun Hw eq_refl)
    as (q & Hdone & Hitems).
  set (s1 := set_worker i (WCounting prefix []) st).
  set (s2 := set_worker i (WDedup prefix [])
               (set_processed (processed_counter s1 + 1) s1)).
  set (s3 := set_worker i (WEmit prefix [] []) (set_seen_ids (seen_ids s2) s2)).
  set (s4 := set_worker i (WPutting prefix []) s3).
  set (s5 := set_worker i WIdle (set_prefix_q q s4)).
  assert (workers s1 !! i = Some (WCounting prefix [])) as Hw1
    by (by eapply lookup_insert_worker).
  assert (workers s2 !! i = Some (WDedup prefix [])) as Hw2
    by (by eapply lookup_insert_worker).
  assert (workers s3 !! i = Some (WEmit prefix [] [])) as Hw3
    by (by eapply lookup_insert_worker).
  assert (workers s4 !! i = Some (WPutting prefix [])) as Hw4
    by (by eapply lookup_insert_worker).
  exists s5. split; [|split].
  - change [EvApi i eff] with ([EvApi i eff] ++ [] ++ [] ++ [] ++ [] ++ []).
    eapply exec_cons.
    { eapply step_worker; [exact Hw|]. cbn [worker_step]. by rewrite Hapi. }
    eapply exec_cons.
    { eapply step_worker; [exact Hw1|]. reflexivity. }
    eapply exec_cons.
    { eapply step_worker; [exact Hw2|]. reflexivity. }
    eapply exec_cons.
    { eapply step_worker; [exact Hw3|]. reflexivity. }
    eapply exec_cons.
    { eapply step_worker; [exact Hw4|].
      unfold s4, s3, s2, s1. simpl. rewrite Hdone. reflexivity. }
    reflexivity.
  - by eapply lookup_insert_worker.
  - done.
Qed.

Lemma api_call_exhausted net k prefix r :
  0 ≤ r →
  (∀ m, (m ≤ Z.to_nat r)%nat → transient (net (k + m)%nat)) →
  ∀ fuel, (Z.to_nat r < fuel)%nat →
    api_call fuel net k prefix r =
    Some (Returned [],
          retried prefix (Z.to_nat r)
          ++ [EGet (autocomplete_url prefix); ELogTimeout prefix]).
Proof.
  intros Hr Hnet fuel Hfuel.
  replace fuel with (Z.to_nat r + S (fuel - S (Z.to_nat r)))%nat by lia.
  rewrite api_call_retries; [| |lia].
  2:{ intros m Hm. apply Hnet. lia. }
  replace (r - Z.of_nat (Z.to_nat r)) with 0 by lia.
  rewrite api_call_unfold_exhausted; [done|]. apply Hnet. lia.
Qed.

(** C7. In [api_call], a 404 response returns the empty list at once, with
    no log entry and no retry; [j] timeouts or connection failures in a row
    within the budget are each followed by a two-second sleep and one more
    attempt; when all [r + 1] attempts fail that way the call logs the
    prefix and returns the empty list.  In the worker, whenever the call
    returns the empty list (so in both cases above) the iteration runs to
    its end: the processed count grows by one, nothing is emitted or put on
    the frontier, and the worker is back at its [get], not ended. *)
Theorem api_call_failure_policy (net : nat → Attempt) (prefix : string) :
  (∀ fuel k r body,
     net k = Responds 404 body →
     api_call (S fuel) net k prefix r =
     Some (Returned [], [EGet (autocomplete_url prefix); EStat 404]))
  ∧ (∀ j fuel k r,
       (∀ m, (m < j)%nat → transient (net (k + m)%nat)) →
       Z.of_nat j ≤ r →
       api_call (j + fuel) net k prefix r =
       match api_call fuel net (k + j) prefix (r - Z.of_nat j) with
       | Some (res, eff) => Some (res, retried prefix j ++ eff)
       | None => None
       end)
  ∧ (∀ k r fuel,
       0 ≤ r →
       (∀ m, (m ≤ Z.to_nat r)%nat → transient (net (k + m)%nat)) →
       (Z.to_nat r < fuel)%nat →
       api_call fuel net k prefix r =
       Some (Returned [],
             retried prefix (Z.to_nat r)
             ++ [EGet (autocomplete_url prefix); ELogTimeout prefix]))
  ∧ (∀ d st i eff,
       in_run d st →
       workers st !! i = Some (WFetched prefix) →
       api_call API_FUEL net 0 prefix DEFAULT_RETRIES = Some (Returned [], eff) →
       ∃ st',
         exec st [AWorker i (WaQuery net); AWorker i WaCount;
                  AWorker i WaDedup; AWorker i WaEmit; AWorker i WaDone]
         = Some (st', [EvApi i eff])
         ∧ workers st' !! i = Some WIdle
         ∧ processed_counter st' = processed_counter st + 1
         ∧ seen_ids st' = seen_ids st
         ∧ rows_q st' = rows_q st
         ∧ q_items (prefix_q st') = q_items (prefix_q st)).
Proof.
  split; [|split; [|split]].
  - intros fuel k r body Hk. by eapply api_call_unfold_404.
  - intros j fuel k r Hnet Hr. by apply api_call_retries.
  - intros k r fuel Hr Hnet Hfuel. by apply api_call_exhausted.
  - intros d st i eff Hrun Hw Hapi. by eapply empty_result_iteration.
Qed.

Lemma api_call_failure_policy_witness :
  ∃ st evs,
    run fresh_disk lone_z = Some (st, evs)
    ∧ workers st !! 0%nat = Some (WFetched "z")
    ∧ api_call API_FUEL silent 0 "z" DEFAULT_RETRIES
      = Some (Returned [],
              retried "z" 3 ++ [EGet (autocomplete_url "z"); ELogTimeout "z"])
    ∧ ∃ st',
        exec st [AWorker 0 (WaQuery silent); AWorker 0 WaCount;
                 AWorker 0 WaDedup; AWorker 0 WaEmit; AWorker 0 WaDone]
        = Some (st', [EvApi 0 (retried "z" 3
                               ++ [EGet (autocomplete_url "z");
                                   ELogTimeout "z"])])
        ∧ workers st' !! 0%nat = Some WIdle
        ∧ processed_counter st' = processed_counter st + 1.
Proof.
  eexists _, _. split; [vm_compute; reflexivity|].
  split; [reflexivity|]. split; [vm_compute; reflexivity|].
  destruct (proj2 (proj2 (proj2 (api_call_failure_policy silent "z")))
              fresh_disk _ 0%nat _
              (in_run_run fresh_disk lone_z _ _ ltac:(vm_compute; reflexivity))
              ltac:(reflexivity) ltac:(vm_compute; reflexivity))
    as (st' & Hexec & Hw & Hp & _).
  exists st'. split; [exact Hexec|]. split; [exact Hw|exact Hp].
Defined.

(** * When workers end *)






(** * The field schema *)










(** * Expansion *)

Lemma puts_of_app i e1 e2 : puts_of i (e1 ++ e2) = puts_of i e1 ++ puts_of i e2.
Proof. apply omap_app. Qed.

Lemma worker_step_remaining i wa w st w' st1 evs p chs :
  worker_step i wa w st = Some (w', st1, evs) →
  remaining w = Some (p, chs) →
  wa ≠ WaDone →
  ∃ chs', remaining w' = Some (p, chs')
          ∧ puts_of i evs ++ children p chs' = children p chs.
Proof.
  intros Hws Hrem Hnd.
  destruct w, wa; simpl in Hws, Hrem; try done;
    repeat case_match; simplify_eq; simpl.
  all: try (eexists; split; [reflexivity|]; simpl; done).
  all: try (eexists; split; [reflexivity|]; simpl;
            destruct (decide (i = i)); done).
Qed.

Lemma iteration_puts i acts : ∀ st st' evs w w' p chs chs',
  workers st !! i = Some w →
  remaining w = Some (p, chs) →
  exec st acts = Some (st', evs) →
  AWorker i WaDone ∉ acts →
  workers st' !! i = Some w' →
  remaining w' = Some (p, chs') →
  puts_of i evs ++ children p chs' = children p chs.
Proof.
  induction acts as [|a acts IH];
    intros st st' evs w w' p chs chs' Hw Hrem Hexec Hnd Hw' Hrem';
    simpl in Hexec.
  - simplify_eq. simpl. congruence.
  - destruct (step st a) as [[st1 e1]|] eqn:Hstep; [|done].
    destruct (exec st1 acts) as [[st2 e2]|] eqn:Hrest; [|done].
    simplify_eq. rewrite puts_of_app.
    assert (AWorker i WaDone ∉ acts) as Hnd'.
    { intros Hin. apply Hnd. by apply list_elem_of_further. }
    destruct (action_of_worker a i) as [[wa ->]|Hother].
    + simpl in Hstep. rewrite Hw in Hstep.
      destruct (worker_step i wa w st) as [[[w1 st1'] evs1]|] eqn:Hws; [|done].
      simplify_eq.
      assert (wa ≠ WaDone) as Hwa.
      { intros ->. apply Hnd. by apply list_elem_of_here. }
      destruct (worker_step_remaining _ _ _ _ _ _ _ _ _ Hws Hrem Hwa)
        as (chs1 & Hrem1 & Heq).
      assert (workers (set_worker i w1 st1') !! i = Some w1) as Hw1.
      { simpl.
        assert (workers st1' = workers st) as ->.
        { destruct w, wa; simpl in Hws; try done;
            repeat case_match; simplify_eq; done. }
        by eapply lookup_insert_worker. }
      rewrite <-Heq, <-(assoc_L (++)). f_equal.
      by eapply (IH _ _ _ _ _ _ _ _ Hw1 Hrem1 Hrest Hnd' Hw' Hrem').
    + destruct (step_frame _ _ _ _ i Hstep Hother) as [Hsame ->].
      simpl. rewrite <-Hsame in Hw.
      by eapply (IH _ _ _ _ _ _ _ _ Hw Hrem Hrest Hnd' Hw' Hrem').
Qed.

Lemma string_app_inj (p a b : string) : p +:+ a = p +:+ b → a = b.
Proof. induction p as [|c p IH]; simpl; [done|]. intros [= H]. by apply IH. Qed.

Lemma children_NoDup p chs : NoDup chs → NoDup (children p chs).
Proof.
  intros Hnd. unfold children. apply NoDup_fmap_2; [|done].
  intros a b. apply string_app_inj.
Qed.

Lemma letters_NoDup : NoDup (py_list ascii_lowercase).
Proof. apply (bool_decide_unpack _). vm_compute. exact I. Qed.

(** A worker in its loop of puts, run alone, puts every child and reaches
    the end of the loop: [put] on the unbounded frontier never blocks. *)
Lemma putting_solo i p (chs : list string) : ∀ st,
  workers st !! i = Some (WPutting p chs) →
  q_maxsize (prefix_q st) ≤ 0 →
  ∃ st' evs,
    exec st (replicate (length chs) (AWorker i WaPut)) = Some (st', evs)
    ∧ puts_of i evs = children p chs
    ∧ workers st' !! i = Some (WPutting p [])
    ∧ q_items (prefix_q st') = q_items (prefix_q st) ++ children p chs.
Proof.
  induction chs as [|ch chs IH]; intros st Hw Hmax.
  - exists st, []. simpl. by rewrite app_nil_r.
  - set (q := mkQueue (q_items (prefix_q st) ++ [p +:+ ch])
                      (q_unfinished (prefix_q st) + 1)
                      (q_maxsize (prefix_q st))).
    set (st1 := set_worker i (WPutting p chs) (set_prefix_q q st)).
    assert (step st (AWorker i WaPut) = Some (st1, [EvPut i (p +:+ ch)]))
      as Hstep.
    { eapply step_worker; [exact Hw|]. cbn [worker_step].
      by rewrite (q_put_unbounded _ _ Hmax). }
    destruct (IH st1) as (st' & evs & Hexec & Hputs & Hw' & Hq).
    { by eapply lookup_insert_worker. }
    { done. }
    exists st', ([EvPut i (p +:+ ch)] ++ evs). split; [|split; [|split]].
    + cbn [length replicate]. by eapply exec_cons.
    + rewrite puts_of_app, Hputs. simpl. by destruct (decide (i = i)).
    + done.
    + rewrite Hq. simpl. by rewrite <-(assoc_L (++)).
Qed.

Lemma prefix_q_unbounded d st : in_run d st → q_maxsize (prefix_q st) = 0.
Proof.
  induction 1 as [st Hinit | st a st' evs Hrun IH Hstep].
  - by apply crawl_init_inv in Hinit as (?&?&?&_&->).
  - step_inv Hstep; simpl; queue_facts; congruence.
Qed.

(** C2. Take a worker that has deduplicated the records [data] of the
    prefix [prefix], and any run of the threads up to the point where that
    worker stands at the end of its loop of puts, still in the same
    iteration.  If [data] has exactly 10 records and [prefix] is shorter
    than [MAX_DEPTH], the worker has put exactly the 26 children
    [prefix + ch], one per letter in alphabet order; if [prefix] has length
    [MAX_DEPTH], or [data] does not have 10 records, it has put nothing.
    And in a run of the crawler such a worker can get there: once its batch
    is on the channel (or empty), its puts never block. *)
Theorem expansion_rule (d : Disk) (st st' : State) (i : nat)
    (prefix : string) (data new_rows : list Row) (acts : list Action)
    (evs : list Event) :
  in_run d st →
  workers st !! i = Some (WEmit prefix data new_rows) →
  exec st acts = Some (st', evs) →
  AWorker i WaDone ∉ acts →
  workers st' !! i = Some (WPutting prefix []) →
  (length data = 10%nat → (String.length prefix < MAX_DEPTH)%nat →
     puts_of i evs = children prefix (py_list ascii_lowercase)
     ∧ length (puts_of i evs) = 26%nat
     ∧ NoDup (puts_of i evs))
  ∧ (String.length prefix = MAX_DEPTH → puts_of i evs = [])
  ∧ (length data ≠ 10%nat → puts_of i evs = [])
  ∧ (new_rows = [] ∨ q_full (rows_q st) = false →
     ∃ st1 evs1,
       exec st (AWorker i WaEmit
                :: replicate (length (expansion data prefix)) (AWorker i WaPut))
       = Some (st1, evs1)
       ∧ workers st1 !! i = Some (WPutting prefix [])
       ∧ puts_of i evs1 = children prefix (expansion data prefix)
       ∧ q_items (prefix_q st1)
         = q_items (prefix_q st) ++ children prefix (expansion data prefix)).
Proof.
  intros Hrun Hw Hexec Hnd Hw'.
  pose proof (iteration_puts i acts st st' evs _ _ prefix _ []
                Hw eq_refl Hexec Hnd Hw' eq_refl) as Hputs.
  simpl in Hputs. rewrite app_nil_r in Hputs.
  split; [|split; [|split]].
  - intros Hlen Hdepth. rewrite Hputs.
    destruct (expansion_cases data prefix) as [(_&_&->)|[[?|?] _]];
      [|done|lia].
    split; [done|]. split; [done|]. apply children_NoDup, letters_NoDup.
  - intros Hdepth. rewrite Hputs.
    destruct (expansion_cases data prefix) as [(_&?&_)|[_ ->]]; [lia|done].
  - intros Hlen. rewrite Hputs.
    destruct (expansion_cases data prefix) as [(?&_&_)|[_ ->]]; done.
  - intros Hroom.
    assert (∃ st0 e0,
              step st (AWorker i WaEmit) = Some (st0, e0)
              ∧ puts_of i e0 = []
              ∧ workers st0 !! i = Some (WPutting prefix (expansion data prefix))
              ∧ prefix_q st0 = prefix_q st) as (st0 & e0 & Hs0 & He0 & Hw0 & Hq0).
    { destruct new_rows as [|r rows].
      - eexists _, _. split; [by eapply step_worker|].
        split; [done|]. split; [by eapply lookup_insert_worker|done].
      - destruct Hroom as [?|Hfull]; [done|].
        eexists _, _. split.
        + eapply step_worker; [exact Hw|]. cbn [worker_step].
          unfold q_put. rewrite Hfull. reflexivity.
        + split; [done|]. split; [by eapply lookup_insert_worker|done]. }
    destruct (putting_solo i prefix (expansion data prefix) st0 Hw0)
      as (st1 & evs1 & Hexec1 & Hputs1 & Hw1 & Hq1).
    { rewrite Hq0, (prefix_q_unbounded d st Hrun). done. }
    exists st1, (e0 ++ evs1). split; [by eapply exec_cons|].
    split; [done|]. split.
    + by rewrite puts_of_app, He0, Hputs1.
    + by rewrite Hq1, Hq0.
Qed.

Lemma ten_rows_length : length ten_rows = 10%nat.
Proof. reflexivity. Qed.

Lemma scenario_a_run :
  (λ x, (workers x.1 !! 0%nat, all_puts x.2)) <$> run fresh_disk scenario_a
  = Some (Some (WPutting "a" []), children "a" (py_list ascii_lowercase)).
Proof. vm_compute. reflexivity. Qed.

Lemma in_run_state_after d acts :
  ran (run d acts) → in_run d (state_after d acts).
Proof.
  unfold state_after, ran. destruct (run d acts) as [[st evs]|] eqn:Hrun;
    [|done].
  intros _. by eapply in_run_run.
Qed.

Lemma exec_projections st acts :
  ran (exec st acts) →
  exec st acts = Some (exec_state st acts, exec_events st acts).
Proof.
  unfold exec_state, exec_events, ran.
  by destruct (exec st acts) as [[st' evs]|].
Qed.

Lemma a_expanded_no_done : AWorker 0 WaDone ∉ a_expanded.
Proof.
  unfold a_expanded. intros [H|H]%elem_of_cons; [done|].
  apply elem_of_replicate in H as [H _]. done.
Qed.

Lemma expansion_rule_witness :
  puts_of 0 (exec_events (state_after fresh_disk a_deduplicated) a_expanded)
  = children "a" (py_list ascii_lowercase)
  ∧ length (puts_of 0 (exec_events (state_after fresh_disk a_deduplicated)
                                   a_expanded))
    = 26%nat.
Proof.
  assert (in_run fresh_disk (state_after fresh_disk a_deduplicated)) as Hrun.
  { apply in_run_state_after. vm_compute. exact I. }
  assert (exec (state_after fresh_disk a_deduplicated) a_expanded
          = Some (exec_state (state_after fresh_disk a_deduplicated) a_expanded,
                  exec_events (state_after fresh_disk a_deduplicated) a_expanded))
    as Hexec.
  { apply exec_projections. vm_compute. exact I. }
  assert (workers (state_after fresh_disk a_deduplicated) !! 0%nat
          = Some (WEmit "a" ten_rows ten_rows)) as Hw.
  { vm_compute. reflexivity. }
  assert (workers (exec_state (state_after fresh_disk a_deduplicated) a_expanded)
            !! 0%nat = Some (WPutting "a" [])) as Hw'.
  { vm_compute. reflexivity. }
  destruct (expansion_rule fresh_disk _ _ 0 "a" ten_rows ten_rows a_expanded _
              Hrun Hw Hexec a_expanded_no_done Hw') as (H & _).
  destruct (H eq_refl ltac:(vm_compute; lia)) as (H1 & H2 & _).
  split; [exact H1|exact H2].
Defined.

(** C3, as the code has it.  When the query for "a" returned 10 records,
    the worker's loop puts the 26 children "aa" to "az" on the frontier,
    in this order: 26 new entries, one per letter. *)
Theorem scenario_a_children (st st' : State) (i : nat)
    (data new_rows : list Row) (acts : list Action) (evs : list Event) :
  length data = 10%nat →
  workers st !! i = Some (WEmit "a" data new_rows) →
  exec st acts = Some (st', evs) →
  AWorker i WaDone ∉ acts →
  workers st' !! i = Some (WPutting "a" []) →
  puts_of i evs
  = ["aa"; "ab"; "ac"; "ad"; "ae"; "af"; "ag"; "ah"; "ai"; "aj"; "ak"; "al";
     "am"; "an"; "ao"; "ap"; "aq"; "ar"; "as"; "at"; "au"; "av"; "aw"; "ax";
     "ay"; "az"]
  ∧ length (puts_of i evs) = 26%nat.
Proof.
  intros Hlen Hw Hexec Hnd Hw'.
  pose proof (iteration_puts i acts st st' evs _ _ "a" _ []
                Hw eq_refl Hexec Hnd Hw' eq_refl) as Hputs.
  simpl in Hputs. rewrite app_nil_r in Hputs. rewrite Hputs.
  destruct (expansion_cases data "a") as [(_&_&->)|[[?|Hd] _]]; [done|done|].
  vm_compute in Hd. lia.
Qed.

Lemma scenario_a_children_witness :
  length (puts_of 0 (exec_events (state_after fresh_disk a_deduplicated)
                                 a_expanded))
  = 26%nat.
Proof.
  refine (proj2 (scenario_a_children
                   (state_after fresh_disk a_deduplicated)
                   (exec_state (state_after fresh_disk a_deduplicated) a_expanded)
                   0 ten_rows ten_rows a_expanded _ eq_refl _ _
                   a_expanded_no_done _)).
  - vm_compute. reflexivity.
  - apply exec_projections. vm_compute. exact I.
  - vm_compute. reflexivity.
Defined.

(** C3 as stated fails on its count: in the run of scenario A the worker
    puts 26 prefixes on the frontier, not 25. *)
Lemma scenario_a_not_25 :
  ran (run fresh_disk scenario_a)
  ∧ all_puts (events_after fresh_disk scenario_a)
    = children "a" (py_list ascii_lowercase)
  ∧ length (all_puts (events_after fresh_disk scenario_a)) ≠ 25%nat.
Proof.
  split; [vm_compute; exact I|]. split; [vm_compute; reflexivity|].
  vm_compute. intros H. discriminate H.
Qed.

(** * Start-up *)

(** C6. Without a checkpoint file the crawl starts with an empty key set,
    the frontier holding the 26 one-letter prefixes "a" to "z" in order,
    and a processed count of zero; with a readable checkpoint it starts
    with the key set, the pending prefixes (in their order) and the
    processed count of the checkpoint. *)
Theorem crawl_startup (d : Disk) :
  (state_file d = None →
   ∃ st, crawl_init d = Some st
         ∧ load_previous d = Some (∅, q_items (prefix_q st), 0)
         ∧ seen_ids st = ∅
         ∧ q_items (prefix_q st)
           = ["a"; "b"; "c"; "d"; "e"; "f"; "g"; "h"; "i"; "j"; "k"; "l";
              "m"; "n"; "o"; "p"; "q"; "r"; "s"; "t"; "u"; "v"; "w"; "x";
              "y"; "z"]
         ∧ length (q_items (prefix_q st)) = 26%nat
         ∧ NoDup (q_items (prefix_q st))
         ∧ processed_counter st = 0)
  ∧ (∀ c, state_file d = Some (PickleState c) →
     ∃ st, crawl_init d = Some st
           ∧ load_previous d
             = Some (ck_seen_ids c, ck_queue c, ck_processed c)
           ∧ seen_ids st = ck_seen_ids c
           ∧ q_items (prefix_q st) = ck_queue c
           ∧ processed_counter st = ck_processed c).
Proof.
  split.
  - intros Hd. unfold crawl_init, load_previous. rewrite Hd.
    eexists. split; [reflexivity|]. simpl.
    split; [done|]. split; [done|]. split; [done|]. split; [done|].
    split; [|done]. apply letters_NoDup.
  - intros c Hd. unfold crawl_init, load_previous. rewrite Hd.
    eexists. split; [reflexivity|]. done.
Qed.

Lemma crawl_startup_witness :
  state_file fresh_disk = None
  ∧ ∃ st, crawl_init fresh_disk = Some st
          ∧ length (q_items (prefix_q st)) = 26%nat
          ∧ processed_counter st = 0.
Proof.
  split; [reflexivity|].
  destruct (proj1 (crawl_startup fresh_disk) eq_refl)
    as (st & Hinit & _ & _ & _ & Hlen & _ & Hp).
  exists st. split; [exact Hinit|]. split; [exact Hlen|exact Hp].
Defined.

(** * Further properties of [api_call] *)

Lemma slept_app e1 e2 : slept (e1 ++ e2) = slept e1 + slept e2.
Proof.
  induction e1 as [|e e1 IH]; simpl; [lia|].
  destruct e; simpl; rewrite ?IH; lia.
Qed.

Lemma api_call_S fuel net k prefix r :
  api_call (S fuel) net k prefix r =
  match net k with
  | Responds status body =>
    if decide (status = 404)
    then Some (Returned [], [EGet (autocomplete_url prefix); EStat status])
    else if raise_for_status status
         then Some (Raised, [EGet (autocomplete_url prefix); EStat status])
         else match body with
              | Some data =>
                Some (Returned data,
                      [EGet (autocomplete_url prefix); EStat status])
              | None =>
                Some (Raised, [EGet (autocomplete_url prefix); EStat status])
              end
  | ReadTimeout | ConnectionError =>
    if decide (r = 0)
    then Some (Returned [],
               [EGet (autocomplete_url prefix); ELogTimeout prefix])
    else match api_call fuel net (S k) prefix (r - 1) with
         | Some (res, eff) =>
           Some (res, EGet (autocomplete_url prefix) :: ESleep 2 :: eff)
         | None => None
         end
  | OtherError => Some (Raised, [EGet (autocomplete_url prefix)])
  end.
Proof. reflexivity. Qed.

(** Whenever a call returns, it has slept two seconds after every attempt
    but the last; with a budget [r >= 0] that is at most [2 * r] seconds. *)
Theorem api_call_sleeps_between_attempts (fuel : nat) :
  ∀ (net : nat → Attempt) (k : nat) (prefix : string) (r : Z) res eff,
    0 ≤ r →
    api_call fuel net k prefix r = Some (res, eff) →
    slept eff = 2 * (Z.of_nat (attempts eff) - 1)
    ∧ slept eff ≤ 2 * r.
Proof.
  induction fuel as [|fuel IH]; intros net k prefix r res eff Hr Hcall;
    [done|].
  destruct (decide (transient (net k))) as [Ht|Ht].
  - destruct (decide (r = 0)) as [->|Hne].
    + rewrite api_call_unfold_exhausted in Hcall by done.
      simplify_eq.
      (replace (slept _) with 0 by reflexivity);
        (replace (attempts _) with 1%nat by reflexivity); lia.
    + rewrite api_call_unfold_retry in Hcall by done.
      destruct (api_call fuel net (S k) prefix (r - 1)) as [[res' eff']|]
        eqn:Hrec; [|done].
      simplify_eq.
      destruct (IH net (S k) prefix (r - 1) res eff' ltac:(lia) Hrec) as [Hs Hb].
      rewrite attempts_cons_get, attempts_cons_sleep.
      change (slept (EGet (autocomplete_url prefix) :: ESleep 2 :: eff'))
        with (2 + slept eff').
      lia.
  - rewrite api_call_S in Hcall. destruct (net k) as [status body| | |] eqn:E.
    + repeat case_match; simplify_eq;
        (replace (slept _) with 0 by reflexivity);
        (replace (attempts _) with 1%nat by reflexivity); lia.
    + destruct Ht. by left.
    + destruct Ht. by right.
    + simplify_eq.
      (replace (slept _) with 0 by reflexivity);
        (replace (attempts _) with 1%nat by reflexivity); lia.
Qed.

Lemma api_call_sleeps_between_attempts_witness :
  0 ≤ 3
  ∧ slept (retried "riga" 3
           ++ [EGet (autocomplete_url "riga"); ELogTimeout "riga"])
    ≤ 2 * 3.
Proof.
  split; [lia|].
  exact (proj2 (api_call_sleeps_between_attempts 4 silent 0 "riga" 3
                  (Returned [])
                  (retried "riga" 3
                   ++ [EGet (autocomplete_url "riga"); ELogTimeout "riga"])
                  ltac:(lia) ltac:(vm_compute; reflexivity))).
Defined.

Lemma api_call_uncaught fuel net k prefix r :
  uncaught (net k) →
  ∃ eff, api_call (S fuel) net k prefix r = Some (Raised, eff)
         ∧ attempts eff = 1%nat ∧ slept eff = 0.
Proof.
  intros Hu. rewrite api_call_S.
  destruct (net k) as [status body| | |]; simpl in Hu; try done.
  - destruct Hu as [Hne [Hraise| ->]].
    + destruct (decide (status = 404)); [done|]. rewrite Hraise. eauto.
    + destruct (decide (status = 404)); [done|].
      destruct (raise_for_status status); eauto.
  - eauto.
Qed.

Lemma dead_worker_stuck st i w wa :
  workers st !! i = Some w → is_dead w → step st (AWorker i wa) = None.
Proof.
  intros Hw Hd. simpl. rewrite Hw.
  destruct w; try discriminate Hd; by destruct wa.
Qed.

(** An error status other than 404, a body that is not JSON or an exception
    that is neither a read timeout nor a connection error is not retried,
    whatever the budget, also when it comes after caught failures: the call
    raises.  In the worker this ends the thread: the prefix is not counted
    as processed, nothing is emitted or put, the shared state is untouched,
    and the thread has no further transition. *)
Theorem api_call_uncaught_ends_worker (net : nat → Attempt)
    (prefix : string) (j : nat) (r : Z) :
  (∀ m, (m < j)%nat → transient (net m)) →
  uncaught (net j) →
  Z.of_nat j ≤ r →
  (∃ eff,
     (∀ fuel, (j < fuel)%nat → api_call fuel net 0 prefix r = Some (Raised, eff))
     ∧ attempts eff = S j)
  ∧ (r = DEFAULT_RETRIES →
     ∀ st i, workers st !! i = Some (WFetched prefix) →
       ∃ eff,
         step st (AWorker i (WaQuery net))
         = Some (set_worker i WCrashed st, [EvApi i eff])
         ∧ processed_counter (set_worker i WCrashed st) = processed_counter st
         ∧ ∀ wa, step (set_worker i WCrashed st) (AWorker i wa) = None).
Proof.
  intros Hnet Hu Hr.
  destruct (api_call_uncaught 0 net j prefix (r - Z.of_nat j) Hu)
    as (eff0 & Hcall0 & Hatt & _).
  assert (∀ fuel, (j < fuel)%nat →
            api_call fuel net 0 prefix r
            = Some (Raised, retried prefix j ++ eff0)) as Hcall.
  { intros fuel Hfuel.
    replace fuel with (j + S (fuel - S j))%nat by lia.
    rewrite api_call_retries; [| |done].
    2:{ intros m Hm. by apply Hnet. }
    destruct (api_call_uncaught (fuel - S j) net j prefix (r - Z.of_nat j) Hu)
      as (eff1 & Hcall1 & _).
    rewrite Nat.add_0_l. rewrite api_call_S in Hcall0, Hcall1 |- *.
    destruct (net j) as [status body| | |]; try done;
      repeat case_match; simplify_eq; done. }
  split.
  - exists (retried prefix j ++ eff0). split; [done|].
    rewrite attempts_retried, Hatt. lia.
  - intros -> st i Hw. exists (retried prefix j ++ eff0).
    assert (j < API_FUEL)%nat as Hj by (unfold API_FUEL, DEFAULT_RETRIES in *; lia).
    split; [|split; [done|]].
    + eapply step_worker; [exact Hw|]. cbn [worker_step].
      by rewrite (Hcall API_FUEL Hj).
    + intros wa. eapply (dead_worker_stuck _ _ WCrashed);
        [by eapply lookup_insert_worker|reflexivity].
Qed.

Lemma api_call_uncaught_ends_worker_witness :
  ∃ eff,
    (∀ fuel, (1 < fuel)%nat →
             api_call fuel timeout_then_503 0 "z" 3 = Some (Raised, eff))
    ∧ attempts eff = 2%nat.
Proof.
  refine (proj1 (api_call_uncaught_ends_worker timeout_then_503 "z" 1 3 _ _ _)).
  - intros m Hm. assert (m = 0%nat) as -> by lia. by left.
  - split; [done|]. by left.
  - lia.
Defined.

(** * The queues' counts of unfinished tasks *)

Lemma rows_q_unfinished d st :
  in_run d st →
  Z.of_nat (length (q_items (rows_q st))) ≤ q_unfinished (rows_q st)
  ∧ writer st ≠ WrCrashed.
Proof.
  induction 1 as [st Hinit | st a st' evs Hrun [IH1 IH2] Hstep].
  - apply crawl_init_inv in Hinit as (?&?&?&_&->). simpl. done.
  - step_inv Hstep; simpl; try done.
    all: try match goal with
      | H : q_task_done _ = None |- _ =>
        unfold q_task_done in H; case_match; [|done];
        match goal with H' : (_ <? 0) = true |- _ => apply Z.ltb_lt in H' end
      end.
    all: queue_facts.
    all: repeat match goal with
         | H : q_items _ = _ |- _ => rewrite H in *
         | H : q_unfinished _ = _ |- _ => rewrite H in *
         end.
    all: rewrite ?length_app in *; simpl in *; try (split; [lia|done]).
    all: try (exfalso; lia).
    all: split; [lia|congruence].
Qed.

(** Neither [task_done] call can raise in a run: the frontier counts every
    prefix that is queued or in a worker's hands as unfinished, so the
    [task_done] that ends an iteration succeeds, lowers the count by one and
    leaves the worker at its [get]; and the writer, which calls [task_done]
    once per batch it took, is never ended by it. *)
Theorem task_done_never_raises (d : Disk) (st : State) :
  in_run d st →
  outstanding st ≤ q_unfinished (prefix_q st)
  ∧ (∀ i p,
       workers st !! i = Some (WPutting p []) →
       ∃ q,
         step st (AWorker i WaDone)
         = Some (set_worker i WIdle (set_prefix_q q st), [])
         ∧ q_items q = q_items (prefix_q st)
         ∧ q_unfinished q = q_unfinished (prefix_q st) - 1)
  ∧ writer st ≠ WrCrashed.
Proof.
  intros Hrun. split; [by eapply outstanding_le_unfinished|]. split.
  - intros i p Hw.
    destruct (task_done_possible d st i _ p Hrun Hw eq_refl) as (q & Hq & Hi).
    exists q. split; [|split; [done|]].
    + eapply step_worker; [exact Hw|]. cbn [worker_step]. by rewrite Hq.
    + by apply q_task_done_inv in Hq as (_ & ? & _).
  - by eapply rows_q_unfinished.
Qed.

Lemma task_done_never_raises_witness :
  outstanding (state_after fresh_disk lone_z)
  ≤ q_unfinished (prefix_q (state_after fresh_disk lone_z)).
Proof.
  refine (proj1 (task_done_never_raises fresh_disk _
                   (in_run_state_after fresh_disk lone_z _))).
  vm_compute. exact I.
Defined.

(** * The files *)

Lemma writer_iter_appends order rows fref d :
  json_file (writer_iter order rows fref d).2 = json_file d ++ rows
  ∧ ∃ new, csv_file (writer_iter order rows fref d).2
           = Some (default [] (csv_file d) ++ new)
  ∧ state_file (writer_iter order rows fref d).2 = state_file d.
Proof.
  unfold writer_iter, ensure_csv_header.
  destruct fref as [fn|]; [|destruct rows as [|r rows]]; simpl.
  - split; [done|]. eexists. split; done.
  - split; [done|]. eexists. split; done.
  - destruct (csv_file d) eqn:E; simpl; rewrite ?E.
    + split; [done|]. eexists. split; done.
    + split; [done|]. eexists (_ :: _). split; done.
Qed.

Lemma step_sinks_append st a st' evs :
  step st a = Some (st', evs) →
  (json_file (disk st) `prefix_of` json_file (disk st'))
  ∧ (default [] (csv_file (disk st)) `prefix_of` default [] (csv_file (disk st')))
  ∧ (is_Some (csv_file (disk st)) → is_Some (csv_file (disk st')))
  ∧ ((∀ ma, a ≠ AMain ma) → state_file (disk st') = state_file (disk st)).
Proof.
  intros Hstep. step_inv Hstep; simpl; try done.
  all: try match goal with
    | H : writer_iter ?o ?l ?f ?d = (_, ?d') |- _ =>
      destruct (writer_iter_appends o l f d) as (Hj & new & Hc & Hs);
      rewrite H in Hj, Hc, Hs; simpl in Hj, Hc, Hs;
      rewrite Hj, Hc, Hs; simpl;
      (split; [by eexists|]); (split; [by eexists|]); (split; [by eauto|done])
    end.
  all: try (split; [done|]; split; [done|]; split; [done|];
            intros Hne; by destruct (Hne _ eq_refl)).
Qed.

(** Both sinks are append-only: whatever the threads do, the JSON-lines file
    and the CSV file keep every row they had, in place, and only grow at the
    end; and only the main thread writes the checkpoint file. *)
Theorem sinks_append_only (acts : list Action) :
  ∀ st st' evs,
    exec st acts = Some (st', evs) →
    (json_file (disk st) `prefix_of` json_file (disk st'))
    ∧ (default [] (csv_file (disk st))
         `prefix_of` default [] (csv_file (disk st')))
    ∧ (is_Some (csv_file (disk st)) → is_Some (csv_file (disk st')))
    ∧ ((∀ ma, AMain ma ∉ acts) →
       state_file (disk st') = state_file (disk st)).
Proof.
  induction acts as [|a acts IH]; intros st st' evs Hexec; simpl in Hexec.
  - by simplify_eq.
  - destruct (step st a) as [[st1 e1]|] eqn:Hstep; [|done].
    destruct (exec st1 acts) as [[st2 e2]|] eqn:Hrest; [|done].
    simplify_eq.
    destruct (step_sinks_append _ _ _ _ Hstep) as (Hj & Hc & He & Hs).
    destruct (IH _ _ _ Hrest) as (Hj' & Hc' & He' & Hs').
    split; [by etrans|]. split; [by etrans|]. split; [by auto|].
    intros Hm. rewrite Hs', Hs; [done| |].
    + intros ma ->. apply (Hm ma). by apply list_elem_of_here.
    + intros ma Hin. apply (Hm ma). by apply list_elem_of_further.
Qed.

Lemma sinks_append_only_witness :
  json_file (disk (state_after fresh_disk []))
    `prefix_of` json_file (disk (state_after fresh_disk first_batch)).
Proof.
  refine (proj1 (sinks_append_only first_batch
                   (state_after fresh_disk [])
                   (state_after fresh_disk first_batch)
                   (events_after fresh_disk first_batch) _)).
  vm_compute. reflexivity.
Defined.

(** * Resuming a finished crawl *)

Lemma save_state_same c d :
  state_file d = Some (PickleState c) → ck_queue c = [] →
  save_state (ck_seen_ids c) [] (ck_processed c) d = d.
Proof.
  destruct d as [sf cf jf], c as [s q p]; simpl. intros -> ->. done.
Qed.

Lemma idle_inv_init c d st :
  state_file d = Some (PickleState c) → ck_queue c = [] →
  crawl_init d = Some st → idle_inv c d st.
Proof.
  intros Hd Hq Hinit. apply crawl_init_inv in Hinit
    as (seen & ql & proc & Hload & ->).
  unfold load_previous in Hload. rewrite Hd in Hload. simplify_eq.
  rewrite Hq. repeat split; simpl; try done.
  by repeat constructor.
Qed.

Lemma idle_inv_step c d st a st' evs :
  state_file d = Some (PickleState c) → ck_queue c = [] →
  idle_inv c d st → step st a = Some (st', evs) →
  idle_inv c d st' ∧ Forall is_exit evs.
Proof.
  intros Hd Hq (Hpq & Hws & Hrq & Hseen & Hproc & Hdisk) Hstep.
  unfold idle_inv. step_inv Hstep; simpl.
  all: try (pose proof (Forall_lookup_1 _ _ _ _ Hws Hw) as Hfl;
            simpl in Hfl; try discriminate Hfl).
  all: queue_facts.
  all: try congruence.
  all: try match goal with
    | H : q_items (rows_q _) = Some _ :: _ |- _ =>
      rewrite H in Hrq; by inversion Hrq
    end.
  all: repeat split; try done.
  all: try (apply Forall_insert; done).
  all: try (by repeat constructor).
  - match goal with H : q_items (rows_q _) = _ :: _ |- _ =>
      rewrite H in Hrq; by inversion Hrq end.
  - rewrite Hpq, Hseen, Hproc. by apply save_state_same.
  - match goal with H : q_items _ = q_items (rows_q _) ++ _ |- _ =>
      rewrite H end.
    apply Forall_app. split; [done|by constructor].
  - rewrite Hseen, Hproc. by apply save_state_same.
Qed.

Lemma idle_inv_exec c d acts : ∀ st0 st evs,
  state_file d = Some (PickleState c) → ck_queue c = [] →
  idle_inv c d st0 → exec st0 acts = Some (st, evs) →
  idle_inv c d st ∧ Forall is_exit evs.
Proof.
  induction acts as [|a acts IH]; intros st0 st evs Hd Hq Hinv Hexec;
    simpl in Hexec.
  - by simplify_eq.
  - destruct (step st0 a) as [[st1 e1]|] eqn:Hstep; [|done].
    destruct (exec st1 acts) as [[st2 e2]|] eqn:Hrest; [|done].
    simplify_eq.
    destruct (idle_inv_step _ _ _ _ _ _ Hd Hq Hinv Hstep) as [Hinv1 He1].
    destruct (IH _ _ _ Hd Hq Hinv1 Hrest) as (Hinv2 & He2).
    split; [done|]. by apply Forall_app.
Qed.

(** Resuming a crawl whose checkpoint has no pending prefixes does nothing:
    whatever the threads do, no worker ever takes a prefix, queries the API,
    forwards a batch or enqueues a prefix, the only work events are workers
    exiting, and the set of keys, the counter and all three files stay
    exactly as the checkpoint and the disk had them. *)
Theorem resumed_finished_crawl_is_inert (d : Disk) (c : Checkpoint)
    (acts : list Action) (st0 st : State) (evs : list Event) :
  state_file d = Some (PickleState c) →
  ck_queue c = [] →
  crawl_init d = Some st0 →
  exec st0 acts = Some (st, evs) →
  Forall is_exit evs
  ∧ Forall (λ w, in_flight w = None) (workers st)
  ∧ q_items (prefix_q st) = []
  ∧ seen_ids st = ck_seen_ids c
  ∧ processed_counter st = ck_processed c
  ∧ disk st = d.
Proof.
  intros Hd Hq Hinit Hexec.
  pose proof (idle_inv_init _ _ _ Hd Hq Hinit) as Hinv.
  destruct (idle_inv_exec _ _ _ _ _ _ Hd Hq Hinv Hexec)
    as ((?&?&?&?&?&?) & He).
  by repeat split.
Qed.

Lemma resumed_finished_crawl_is_inert_witness :
  Forall is_exit (events_after finished_disk idle_crawl)
  ∧ disk (state_after finished_disk idle_crawl) = finished_disk.
Proof.
  destruct (resumed_finished_crawl_is_inert finished_disk
              (mkCheckpoint {["k1"; "k2"]} [] 27) idle_crawl
              (state_after finished_disk [])
              (state_after finished_disk idle_crawl)
              (events_after finished_disk idle_crawl))
    as (He & _ & _ & _ & _ & Hd).
  - reflexivity.
  - reflexivity.
  - vm_compute. reflexivity.
  - vm_compute. reflexivity.
  - split; [exact He|exact Hd].
Defined.

(** * Checkpoints *)





(** * Shutdown *)

Lemma Forall_is_Some_fmap {A} (l : list (option A)) :
  Forall is_Some l → ∃ bs, l = Some <$> bs.
Proof.
  induction 1 as [|x l [y ->] _ [bs ->]]; [by exists []|by exists (y :: bs)].
Qed.

Lemma forallb_dead ws :
  forallb (λ w, negb (is_alive w)) ws = true → Forall is_dead ws.
Proof.
  rewrite forallb_forall, Forall_forall. intros H w Hin.
  apply list_elem_of_In, H in Hin. unfold is_dead.
  by destruct (is_alive w).
Qed.

Lemma shutdown_inv_run d s : in_run d s → shutdown_inv s.
Proof.
  induction 1 as [st Hinit | st a st' evs Hrun IH Hstep].
  - apply crawl_init_inv in Hinit as (?&?&?&_&->). by split.
  - pose proof (rows_q_unfinished _ _ Hrun) as [Hlen _].
    unfold shutdown_inv in *. step_inv Hstep; simpl in *.
    all: try congruence.
    all: try (exfalso;
      match goal with
      | H : context [Forall is_dead (workers ?s)] |- _ =>
        assert (Forall is_dead (workers s)) as Hd by tauto;
        pose proof (Forall_lookup_1 _ _ _ _ Hd Hw) as Hdead;
        discriminate Hdead
      end).
    all: try done.
    all: try match goal with
      | H : q_task_done _ = None |- _ =>
        exfalso; unfold q_task_done in H; case_match; [|done];
        match goal with H' : (_ <? 0) = true |- _ => apply Z.ltb_lt in H' end;
        queue_facts;
        repeat match goal with
         | H : q_items _ = _ |- _ => rewrite H in *
         | H : q_unfinished _ = _ |- _ => rewrite H in *
         end; simpl in *; lia
      end.
    all: queue_facts.
    all: try (destruct IH as [? [[? ?]|[? ?]]]; [|congruence]).
    all: destruct_and?.
    all: try congruence.
    all: repeat split; try done; try congruence.
    all: clear Hrun; try clear Hw.
    all: try (by apply forallb_dead).
    all: repeat match goal with
      | H : q_items (rows_q ?s) = _, H' : context [q_items (rows_q ?s)] |- _ =>
        lazymatch type of H' with
        | q_items (rows_q s) = _ => fail
        | _ => rewrite H in H'
        end
      | H : q_items ?q = _ |- context [q_items ?q] => rewrite H
      end.
    all: try match goal with
      | H : Forall is_Some (None :: _) |- _ =>
        inversion H as [|?? [? ?]]; discriminate
      | H : Forall is_Some (Some _ :: _) |- _ => by inversion H
      | H : Forall is_Some ?l |- Forall is_Some (?l ++ _) =>
        apply Forall_app; split; [done|by repeat constructor]
      end.
    + match goal with H : ∃ bs, _ |- _ => destruct H as [[|b bs] Hbs] end;
        simpl in Hbs; [discriminate|]. simplify_eq.
      left. split; [done|by exists bs].
    + match goal with H : ∃ bs, _ |- _ => destruct H as [[|b bs] Hbs] end;
        simpl in Hbs; [|discriminate]. simplify_eq.
      right. by split.
    + match goal with H : Forall is_Some _ |- _ =>
        apply Forall_is_Some_fmap in H as [bs Hbs] end.
      left. split; [done|]. exists bs. by rewrite Hbs.
    + match goal with H : _ ∨ _ |- _ => by destruct H as [[? _]|[_ ?]] end.
Qed.




(** Once [crawl] has returned, the prefixes still in the frontier are gone
    for good: the last checkpoint lists none of them, so a run started on
    the files [crawl] left does no work at all; it queries nothing, forwards
    nothing, and leaves the key set, the counter and the files as they
    were.  (The frontier can be non-empty at that point: the main loop ends
    as soon as no worker is alive, also when they died of exceptions.) *)
Theorem prefixes_left_at_return_are_dropped (d : Disk) (acts : list Action)
    (st0 st : State) (evs : list Event) (uniq : nat) (proc : Z)
    (acts' : list Action) (st0' st' : State) (evs' : list Event) :
  crawl_init d = Some st0 →
  exec st0 acts = Some (st, evs) →
  main st = MDone uniq proc →
  crawl_init (disk st) = Some st0' →
  exec st0' acts' = Some (st', evs') →
  q_items (prefix_q st0') = []
  ∧ Forall is_exit evs'
  ∧ seen_ids st' = seen_ids st
  ∧ processed_counter st' = processed_counter st
  ∧ disk st' = disk st.
Proof.
  intros Hinit Hexec Hmain Hinit' Hexec'.
  pose proof (in_run_exec_init _ _ _ _ _ Hinit Hexec) as Hrun.
  pose proof (shutdown_inv_run _ _ Hrun) as Hinv.
  unfold shutdown_inv in Hinv. rewrite Hmain in Hinv.
  destruct Hinv as (_ & _ & _ & _ & Hp & Hck).
  pose proof (idle_inv_init _ _ _ Hck eq_refl Hinit') as Hidle.
  destruct (idle_inv_exec _ _ _ _ _ _ Hck eq_refl Hidle Hexec')
    as ((_&_&_&Hs&Hpc&Hdk) & He).
  destruct Hidle as (Hq0 & _).
  simpl in Hs, Hpc. repeat split; try done. by rewrite Hpc.
Qed.

Lemma prefixes_left_at_return_are_dropped_witness :
  length (q_items (prefix_q (state_after fresh_disk abandoned_crawl)))
  = 24%nat
  ∧ q_items (prefix_q
       (state_after (disk (state_after fresh_disk abandoned_crawl)) [])) = [].
Proof.
  split; [vm_compute; reflexivity|].
  refine (proj1 (prefixes_left_at_return_are_dropped
    fresh_disk abandoned_crawl
    (state_after fresh_disk [])
    (state_after fresh_disk abandoned_crawl)
    (events_after fresh_disk abandoned_crawl)
    (size (seen_ids (state_after fresh_disk abandoned_crawl))) 1
    [] (state_after (disk (state_after fresh_disk abandoned_crawl)) [])
    (state_after (disk (state_after fresh_disk abandoned_crawl)) []) []
    _ _ _ _ _)).
  all: vm_compute; reflexivity.
Defined.

(** * Keys that are in the set but not on their way to the writer *)

Lemma settled_step k st a st' evs :
  settled k st → step st a = Some (st', evs) →
  settled k st' ∧ k ∉ keys (emitted evs).
Proof.
  intros [Hin Hnot] Hstep. unfold settled.
  step_inv Hstep; simpl; unfold emitted; simpl.
  all: try (split; [split; [done|]|by apply not_elem_of_nil]).
  all: try done.
  all: try (erewrite (held_insert_same _ _ _ _ Hw); done).
  all: try match goal with
    | H : dedup_loop _ _ _ = _ |- _ =>
      apply dedup_loop_spec in H as [Hsub Hrows]
    end.
  - destruct (Hrows _ eq_refl) as (new & -> & _ & _ & _ & Hnew & _).
    pose proof (held_insert _ _ _ (WEmit prefix0 data ([] ++ new)) Hw) as Hp.
    simpl in Hp. rewrite app_nil_r in Hp.
    split; [|by apply not_elem_of_nil]. split; [set_solver|].
    intros Hk. assert (k ∈ keys (held (workers st) ++ new)) as Hk'.
    { rewrite <-Hp. exact Hk. }
    rewrite keys_app in Hk'. apply elem_of_app in Hk' as [Hk'|Hk']; [done|].
    by apply (Hnew k).
  - pose proof (held_insert_same _ _ _ WCrashed Hw eq_refl eq_refl) as Hp.
    split; [|by apply not_elem_of_nil]. split; [set_solver|].
    by rewrite Hp.
  - pose proof (held_insert _ _ _ (WPutting prefix0 (expansion data prefix0))
                  Hw) as Hp.
    simpl in Hp. rewrite app_nil_r in Hp.
    assert (k ∉ keys (held (<[i:=WPutting prefix0 (expansion data prefix0)]>
                              (workers st)) ++ g :: l0)) as Hk.
    { by rewrite Hp. }
    rewrite keys_app in Hk. apply not_elem_of_app in Hk as [Hk1 Hk2].
    split; [by split|]. by rewrite app_nil_r.
Qed.

Lemma settled_exec k acts : ∀ st st' evs,
  settled k st → exec st acts = Some (st', evs) →
  settled k st' ∧ k ∉ keys (emitted evs).
Proof.
  induction acts as [|a acts IH]; intros st st' evs Hs Hexec; simpl in Hexec.
  - simplify_eq. split; [done|]. by apply not_elem_of_nil.
  - destruct (step st a) as [[st1 e1]|] eqn:Hstep; [|done].
    destruct (exec st1 acts) as [[st2 e2]|] eqn:Hrest; [|done].
    simplify_eq.
    destruct (settled_step _ _ _ _ _ Hs Hstep) as [Hs1 He1].
    destruct (IH _ _ _ Hs1 Hrest) as [Hs2 He2].
    split; [done|]. rewrite emitted_app, keys_app.
    by apply not_elem_of_app.
Qed.

Lemma dedup_loop_key_error pre obj rest : ∀ seen acc,
  Forall has_uid pre → uid obj = None →
  dedup_loop (pre ++ obj :: rest) seen acc
  = (seen ∪ list_to_set (keys pre), None).
Proof.
  induction pre as [|r pre IH]; intros seen acc Hpre Hobj; simpl.
  - rewrite Hobj. f_equal. set_solver.
  - inversion Hpre as [|?? [k Hk] Hpre']; subst.
    unfold keys. simpl. rewrite Hk. simpl. fold (keys pre).
    destruct (decide (k ∈ seen)).
    + rewrite IH by done. f_equal. set_solver.
    + rewrite IH by done. f_equal. set_solver.
Qed.

(** A record without [location] or [placeID] in an answer ends the worker
    with a [KeyError] in the middle of the deduplication loop: the keys of
    the records before it are already in the shared set, but the batch is
    never put on the channel.  Those records are lost for the rest of the
    run: no worker forwards a record with one of their keys afterwards. *)
Theorem malformed_record_loses_batch (d : Disk) (acts : list Action)
    (st0 st : State) (evs : list Event) (i : nat) (p : string)
    (pre : list Row) (obj : Row) (rest : list Row) :
  crawl_init d = Some st0 →
  exec st0 acts = Some (st, evs) →
  workers st !! i = Some (WDedup p (pre ++ obj :: rest)) →
  Forall has_uid pre →
  uid obj = None →
  ∃ st1,
    step st (AWorker i WaDedup) = Some (st1, [])
    ∧ workers st1 !! i = Some WCrashed
    ∧ seen_ids st1 = seen_ids st ∪ list_to_set (keys pre)
    ∧ rows_q st1 = rows_q st
    ∧ (∀ wa, step st1 (AWorker i wa) = None)
    ∧ ∀ acts' st' evs' k,
        exec st1 acts' = Some (st', evs') →
        k ∈ keys pre → (k ∉ seen_ids st) →
        k ∉ keys (emitted evs').
Proof.
  intros Hinit Hexec Hw Hpre Hobj.
  pose proof (uniq_inv_exec _ _ _ _ _ _ _ (uniq_inv_init _ _ Hinit) Hexec)
    as (W & _ & _ & _ & _ & Hseen & _).
  eexists. split.
  { eapply step_worker; [exact Hw|]. cbn [worker_step].
    by rewrite (dedup_loop_key_error pre obj rest _ _ Hpre Hobj). }
  split; [simpl; by eapply lookup_insert_worker|].
  split; [done|]. split; [done|]. split.
  { intros wa. eapply (dead_worker_stuck _ _ WCrashed);
      [by eapply lookup_insert_worker|reflexivity]. }
  intros acts' st' evs' k Hexec' Hk Hnew.
  eapply settled_exec; [|exact Hexec'].
  split; simpl; [set_solver|].
  rewrite (held_insert_same _ _ _ WCrashed Hw eq_refl eq_refl).
  intros Hheld. apply Hnew. apply Hseen. rewrite keys_app.
  apply elem_of_app. by right.
Qed.

Lemma malformed_record_loses_batch_witness :
  ∃ st1,
    step (state_after fresh_disk malformed_answer) (AWorker 0 WaDedup)
    = Some (st1, [])
    ∧ workers st1 !! 0%nat = Some WCrashed.
Proof.
  destruct (malformed_record_loses_batch fresh_disk malformed_answer
              (state_after fresh_disk [])
              (state_after fresh_disk malformed_answer)
              (events_after fresh_disk malformed_answer)
              0 "a" [mk_row "Riga" 1] no_place [])
    as (st1 & Hstep & Hw & _).
  - vm_compute. reflexivity.
  - vm_compute. reflexivity.
  - vm_compute. reflexivity.
  - repeat constructor. by eexists.
  - vm_compute. reflexivity.
  - exists st1. by split.
Defined.

(** * One proxy per thread *)

(** The proxy of a worker is taken from the list round-robin.  With an
    empty list every worker fails before its first request; otherwise every
    worker gets a proxy of the list, and, the entries being distinct, the
    [N_THREADS] workers get pairwise different proxies exactly when the
    list has at least [N_THREADS] entries. *)
Theorem proxy_per_thread (PROXY_LIST : list string) :
  (PROXY_LIST = [] → ∀ i, proxy_of PROXY_LIST i = None)
  ∧ (PROXY_LIST ≠ [] →
     ∀ i, ∃ p, proxy_of PROXY_LIST i = Some p ∧ p ∈ PROXY_LIST)
  ∧ (PROXY_LIST ≠ [] → NoDup PROXY_LIST →
     ((∀ i j, (i < N_THREADS)%nat → (j < N_THREADS)%nat → i ≠ j →
              proxy_of PROXY_LIST i ≠ proxy_of PROXY_LIST j)
      ↔ (N_THREADS ≤ length PROXY_LIST)%nat)).
Proof.
  split; [by intros ->|].
  assert (PROXY_LIST ≠ [] → ∀ i,
            proxy_of PROXY_LIST i
            = PROXY_LIST !! (i mod length PROXY_LIST)%nat
            ∧ (i mod length PROXY_LIST < length PROXY_LIST)%nat) as Hp.
  { intros Hne i. unfold proxy_of.
    destruct PROXY_LIST as [|p l] eqn:E; [done|]. rewrite <-E.
    assert (length PROXY_LIST ≠ 0)%nat as Hn by (by rewrite E).
    destruct (length PROXY_LIST) eqn:El; [done|]. rewrite <-El.
    split; [done|]. apply Nat.mod_upper_bound. lia. }
  split.
  - intros Hne i. destruct (Hp Hne i) as [-> Hlt].
    destruct (lookup_lt_is_Some_2 _ _ Hlt) as [p Hl].
    exists p. split; [done|]. by eapply list_elem_of_lookup_2.
  - intros Hne Hnd. split.
    + intros Hdist. destruct (decide (N_THREADS ≤ length PROXY_LIST)%nat)
        as [|Hlt]; [done|]. exfalso.
      assert (length PROXY_LIST ≠ 0)%nat as Hn.
      { by destruct PROXY_LIST. }
      apply (Hdist 0%nat (length PROXY_LIST)); [unfold N_THREADS; lia|lia|lia|].
      destruct (Hp Hne 0%nat) as [-> _].
      destruct (Hp Hne (length PROXY_LIST)) as [-> _].
      by rewrite Nat.Div0.mod_same, Nat.Div0.mod_0_l.
    + intros Hlen i j Hi Hj Hij.
      destruct (Hp Hne i) as [-> Hli]. destruct (Hp Hne j) as [-> Hlj].
      rewrite !Nat.mod_small by lia.
      destruct (lookup_lt_is_Some_2 PROXY_LIST i ltac:(lia)) as [p Hpi].
      rewrite Hpi. intros Heq. symmetry in Heq.
      by apply Hij, (NoDup_lookup _ _ _ _ Hnd Hpi Heq).
Qed.

Lemma proxy_per_thread_witness :
  ∃ p, proxy_of ["p1"; "p2"] 5 = Some p ∧ p ∈ ["p1"; "p2"].
Proof.
  apply (proj1 (proj2 (proxy_per_thread ["p1"; "p2"]))). done.
Defined.
